(** * storage-records: a bounded record store over a key-value backend

    Shallow embedding of [src/helpers/storage-records.js].  The module keeps,
    per namespace ("area"), a catalog of record-set ids under the key
    [<area>Cat] and every record set under its own id, all in the single key
    space of [storage.local].

    - An operation is a function from the state of the backend to the way
      its promise settles and the state it leaves; the steps of a promise
      chain run one after the other, with nothing in between.
    - The state of the backend is the store, one finite map for catalogs and
      record sets alike, and the log of the calls it received.
    - Counters are integers or [NaN]; what the operations read from the
      clock, and whether the backend accepts a write, are arguments. *)

From Stdlib Require Import Ascii.
From stdpp Require Import gmap strings list fin_maps pretty.

(** ** JavaScript numbers, as far as the counters need them *)

(** [wordCount] fields hold integers, or [NaN] once arithmetic met an
    [undefined] operand. *)
Inductive num :=
  | Fin (z : Z)
  | NaN.

Global Instance num_eq_dec : EqDecision num.
Proof. solve_decision. Defined.

(** [a + b] *)
Definition num_add (a b : num) : num :=
  match a, b with
  | Fin x, Fin y => Fin (x + y)
  | _, _ => NaN
  end.

(** [a - b] *)
Definition num_sub (a b : num) : num :=
  match a, b with
  | Fin x, Fin y => Fin (x - y)
  | _, _ => NaN
  end.

(** [a >= b]: every comparison with [NaN] is false. *)
Definition num_ge (a b : num) : bool :=
  match a, b with
  | Fin x, Fin y => bool_decide (y ≤ x)%Z
  | _, _ => false
  end.

(** [ToNumber] of a property read: [None] is [undefined]. *)
Definition ToNumber (v : option num) : num :=
  match v with
  | Some n => n
  | None => NaN
  end.

(** [n.toString()] and the string a number contributes to a [+] with a
    string: the decimal rendering. *)
Definition toString (n : Z) : string := pretty n.

(** ** Data model (the JSDoc typedefs) *)

Definition Word := string.

(** typedef [Record]: the words of one day, latest first. *)
Record RecordItem := mkItem {
  item_date : string;
  item_data : list Word;
}.

(** typedef [RecordSet]. *)
Record RecordSet := mkSet {
  set_id : string;
  set_data : list RecordItem;
  set_wordCount : num;
}.

(** typedef [RecordCat]; [timestamp] is absent ([None]) on a catalog that
    [appendAndSave] has not stamped yet. *)
Record RecordCat := mkCat {
  cat_data : list string;
  cat_wordCount : num;
  cat_timestamp : option Z;
}.

(** What a key of [storage.local] may hold. *)
Inductive value :=
  | VCat (c : RecordCat)
  | VSet (s : RecordSet).

Global Instance RecordItem_eq_dec : EqDecision RecordItem.
Proof. solve_decision. Defined.
Global Instance RecordSet_eq_dec : EqDecision RecordSet.
Proof. solve_decision. Defined.
Global Instance RecordCat_eq_dec : EqDecision RecordCat.
Proof. solve_decision. Defined.
Global Instance value_eq_dec : EqDecision value.
Proof. solve_decision. Defined.

(** [v.wordCount], a field both shapes have. *)
Definition wordCount_of (v : value) : num :=
  match v with
  | VCat c => cat_wordCount c
  | VSet s => set_wordCount s
  end.

(** A string primitive has neither a [wordCount] nor an [id] property:
    both reads give [undefined]. *)
Definition string_wordCount (s : string) : option num := None.
Definition string_id (s : string) : option string := None.

(** ** The storage backend *)

(** The argument of [get] and [remove]: one key or an array of keys. *)
Inductive keys :=
  | OneKey (k : string)
  | ManyKeys (ks : list string).

Definition keys_list (ks : keys) : list string :=
  match ks with
  | OneKey k => [k]
  | ManyKeys l => l
  end.

(** Calls received by the backend, oldest first.  [CRemove None] is
    [remove(undefined)]. *)
Inductive call :=
  | CGet (ks : keys)
  | CSet (items : list (string * value))
  | CRemove (ks : option keys).

Record World := mkWorld {
  store : gmap string value;
  calls : list call;
}.

Inductive fault :=
  | TypeError
  | StorageFailure.

(** How the promise of an operation settles.  [IllTyped] marks a run that
    met a stored value of the other shape than its JSDoc type; the
    embedding does not follow the code there. *)
Inductive outcome (A : Type) :=
  | Resolved (a : A)
  | Rejected (e : fault)
  | IllTyped.
Arguments Resolved {A} a.
Arguments Rejected {A} e.
Arguments IllTyped {A}.

Definition M (A : Type) : Type := World → outcome A * World.

Global Instance M_mret : MRet M := λ A a w, (Resolved a, w).

Global Instance M_bind : MBind M := λ A B k m w,
  match m w with
  | (Resolved a, w') => k a w'
  | (Rejected e, w') => (Rejected e, w')
  | (IllTyped, w') => (IllTyped, w')
  end.

Definition throw {A} (e : fault) : M A := λ w, (Rejected e, w).
Definition ill_typed {A} : M A := λ w, (IllTyped, w).

Definition log (c : call) (w : World) : World :=
  mkWorld (store w) (calls w ++ [c]).

(** Modelled from the spec: [storage.local.get] of [src/helpers/chrome-api],
    which is not part of the sources.  [get] answers with the mapping of the
    requested keys that are stored, absent keys simply missing, and never
    fails for a missing key. *)
Definition response (ks : keys) (st : gmap string value) : gmap string value :=
  filter (λ kv, kv.1 ∈ keys_list ks) st.

Definition storage_get (ks : keys) : M (gmap string value) := λ w,
  (Resolved (response ks (store w)), log (CGet ks) w).

(** Modelled from the spec: [storage.local.remove] of
    [src/helpers/chrome-api].  [remove] deletes the named keys.  A call with
    [undefined] names no key, and no key is removed; how that call settles
    does not matter to the one caller that makes it, which does not wait for
    it. *)
Definition remove_keys (ks : option keys) (st : gmap string value) : gmap string value :=
  match ks with
  | Some ks => foldr delete st (keys_list ks)
  | None => st
  end.

Definition storage_remove (ks : option keys) : M unit := λ w,
  (Resolved tt, mkWorld (remove_keys ks (store w)) (calls w ++ [CRemove ks])).

(** Modelled from the spec: [storage.local.set] of [src/helpers/chrome-api].
    [set] writes all the given keys in one call, or fails as a whole; [ok]
    says whether the backend accepts the write.  The items are the
    properties of the object literal in order, so a repeated key keeps the
    later value. *)
Definition write_items (items : list (string * value)) (st : gmap string value)
  : gmap string value :=
  foldl (λ acc kv, <[kv.1 := kv.2]> acc) st items.

Definition storage_set (ok : bool) (items : list (string * value)) : M unit := λ w,
  if ok
  then (Resolved tt, mkWorld (write_items items (store w)) (calls w ++ [CSet items]))
  else (Rejected StorageFailure, log (CSet items) w).

(** ** Clock *)

(** The fields of [new Date()] that [getToday] reads. *)
Record LocalDate := mkDate {
  getMonth : Z;
  getDate : Z;
  getFullYear : Z;
}.

Definition getToday (d : LocalDate) : string :=
  let month := (getMonth d + 1)%Z in
  let date := getDate d in
  let year := getFullYear d in
  (if bool_decide (month < 10)%Z then "0" else "") +:+ toString month +:+
  (if bool_decide (date < 10)%Z then "0" else "") +:+ toString date +:+
  toString year.

(** What one run of [addRecord] reads from its surroundings: the three
    [Date.now()] calls (in [getLatestSet], in [getTodayItem], in
    [appendAndSave]), the [new Date()] of [getToday], and whether the
    backend accepts the final write. *)
Record Env := mkEnv {
  now_latest : Z;
  date_today : LocalDate;
  now_roll : Z;
  now_stamp : Z;
  set_ok : bool;
}.

Definition catName (area : string) : string := area +:+ "Cat".

(** [res[catName]] read as a catalog. *)
Definition as_catalog (v : option value) : M (option RecordCat) :=
  match v with
  | None => mret None
  | Some (VCat c) => mret (Some c)
  | Some (VSet _) => ill_typed
  end.

(** ** getLatestSet *)

Definition emptySet (now : Z) : RecordSet :=
  {| set_id := toString now; set_data := []; set_wordCount := Fin 0 |}.

(** [ids.reduce((sum, id) => allSets[id].wordCount + sum, sum)] *)
Fixpoint reduce_wordCount (allSets : gmap string value) (ids : list string)
    (sum : num) : M num :=
  match ids with
  | [] => mret sum
  | id :: rest =>
      match allSets !! id with
      | Some v => reduce_wordCount allSets rest (num_add (wordCount_of v) sum)
      | None => throw TypeError
      end
  end.

(** [catalog] is [res[catName]], [None] when the key is not stored.  The
    first branch of the source, [!catalog || catalog.data.length <= 0],
    answers without a promise and without touching the backend.  Otherwise
    the set under the first id is fetched; when it is missing, the catalog is
    repaired from the sets that do resolve.  [now] is [Date.now()]. *)
Definition getLatestSet (now : Z) (catalog : option RecordCat)
  : M (RecordCat * RecordSet) :=
  let fresh :=
    let latestSet := emptySet now in
    mret ({| cat_data := [set_id latestSet];
            cat_wordCount := Fin 0;
            cat_timestamp := None |}, latestSet) in
  match catalog with
  | None => fresh
  | Some catalog =>
      match cat_data catalog with
      | [] => fresh
      | id :: _ =>
          response ← storage_get (OneKey id);
          match response !! id with
          | Some (VSet latestSet) => mret (catalog, latestSet)
          | Some (VCat _) => ill_typed
          | None =>
              let latestSet := emptySet now in
              allSets ← storage_get (ManyKeys (cat_data catalog));
              let data := filter (λ id, is_Some (allSets !! id)) (cat_data catalog) in
              wordCount ← reduce_wordCount allSets data (Fin 0);
              mret ({| cat_data := set_id latestSet :: data;
                      cat_wordCount := wordCount;
                      cat_timestamp := cat_timestamp catalog |}, latestSet)
          end
      end
  end.

(** ** getTodayItem *)

(** [l.pop()]: the last element ([undefined] on an empty array) and what
    stays. *)
Definition pop {A} (l : list A) : option A * list A := (last l, removelast l).

(** [d] is [new Date()] and [now] is [Date.now()].  The returned
    [todayItem] is the object at [latestSet.data[0]], in the early return and
    after the final [unshift] alike.  In the eviction, [oldestSet] is what
    [catalog.data.pop()] returns, an id string: the subtraction reads its
    [wordCount] and the [remove] call, which is issued and not awaited, is
    given its [id]. *)
Definition getTodayItem (d : LocalDate) (now : Z) (r : RecordCat * RecordSet)
  : M (RecordCat * RecordSet * RecordItem) :=
  let '(catalog, latestSet) := r in
  let today := getToday d in
  let new_date :=
    let todayItem := {| item_date := today; item_data := [] |} in
    '(catalog, latestSet) ←
      (if num_ge (set_wordCount latestSet) (Fin 500) then
         let latestSet := emptySet now in
         let data := set_id latestSet :: cat_data catalog in
         if bool_decide (20 < length data) then
           match pop data with
           | (Some oldestSet, data) =>
               let wordCount :=
                 num_sub (cat_wordCount catalog) (ToNumber (string_wordCount oldestSet)) in
               _ ← storage_remove (OneKey <$> string_id oldestSet);
               mret ({| cat_data := data;
                        cat_wordCount := wordCount;
                        cat_timestamp := cat_timestamp catalog |}, latestSet)
           | (None, _) => throw TypeError
           end
         else
           mret ({| cat_data := data;
                    cat_wordCount := cat_wordCount catalog;
                    cat_timestamp := cat_timestamp catalog |}, latestSet)
       else mret (catalog, latestSet));
    mret (catalog,
          {| set_id := set_id latestSet;
             set_data := todayItem :: set_data latestSet;
             set_wordCount := set_wordCount latestSet |},
          todayItem) in
  match set_data latestSet !! 0 with
  | Some first =>
      if decide (item_date first = today)
      then mret (catalog, latestSet, first)
      else new_date
  | None => new_date
  end.

(** ** appendAndSave *)

(** [l.indexOf(x)]: the first position of [x], counted from [i], or [-1]. *)
Fixpoint indexOf_from (i : Z) (l : list Word) (x : Word) : Z :=
  match l with
  | [] => -1
  | y :: l' => if decide (y = x) then i else indexOf_from (i + 1) l' x
  end.

Definition indexOf (l : list Word) (x : Word) : Z := indexOf_from 0 l x.

(** The mutations of [appendAndSave], up to the write.  [todayItem] aliases
    [latestSet.data[0]]: its mutation is written through to that position
    of the set. *)
Definition appendWord (now : Z) (r : RecordCat * RecordSet * RecordItem)
    (text : Word) : RecordCat * RecordSet :=
  let '(catalog, latestSet, todayItem) := r in
  let index := indexOf (item_data todayItem) text in
  let '(setCount, catCount, data) :=
    if bool_decide (index = -1)%Z
    then (num_add (set_wordCount latestSet) (Fin 1),
          num_add (cat_wordCount catalog) (Fin 1),
          item_data todayItem)
    else (set_wordCount latestSet,
          cat_wordCount catalog,
          delete (Z.to_nat index) (item_data todayItem)) in
  let todayItem := {| item_date := item_date todayItem; item_data := text :: data |} in
  let latestSet :=
    {| set_id := set_id latestSet;
       set_data := <[0 := todayItem]> (set_data latestSet);
       set_wordCount := setCount |} in
  let catalog :=
    {| cat_data := cat_data catalog;
       cat_wordCount := catCount;
       cat_timestamp := Some now |} in
  (catalog, latestSet).

Definition appendAndSave (now : Z) (ok : bool)
    (r : RecordCat * RecordSet * RecordItem) (text : Word) (catName : string)
  : M unit :=
  let '(catalog, latestSet) := appendWord now r text in
  storage_set ok [(catName, VCat catalog); (set_id latestSet, VSet latestSet)].

(** ** The public operations *)

Definition addRecord (e : Env) (area : string) (text : Word) : M unit :=
  let catName := catName area in
  res ← storage_get (OneKey catName);
  catalog ← as_catalog (res !! catName);
  r ← getLatestSet (now_latest e) catalog;
  r ← getTodayItem (date_today e) (now_roll e) r;
  appendAndSave (now_stamp e) (set_ok e) r text catName.

Definition clearRecords (area : string) : M unit :=
  let catName := catName area in
  res ← storage_get (OneKey catName);
  catalog ← as_catalog (res !! catName);
  match catalog with
  | Some catalog => storage_remove (Some (ManyKeys (cat_data catalog)))
  | None => mret tt
  end.

(** [ToNumber] of an array of [Record] objects, which is what the bound
    [j < items] compares with: the array is rendered by [join(",")], the
    empty array as [""], which reads as 0; every [Record] is rendered as
    ["[object Object]"], so a non-empty array gives a string that is not a
    numeral. *)
Definition ToNumber_items (items : list RecordItem) : num :=
  match items with
  | [] => Fin 0
  | _ :: _ => NaN
  end.

(** The values [0, 1, 2, ...] of [j] for which [j < bound] holds. *)
Definition below (bound : num) : list nat :=
  match bound with
  | Fin n => seq 0 (Z.to_nat n)
  | NaN => []
  end.

(** [result = result.concat(items[j].data)] for the given [j]s. *)
Fixpoint concat_items (items : list RecordItem) (js : list nat)
    (result : list Word) : M (list Word) :=
  match js with
  | [] => mret result
  | j :: js' =>
      match items !! j with
      | Some item => concat_items items js' (result ++ item_data item)
      | None => throw TypeError
      end
  end.

(** The loop over [setIds]. *)
Fixpoint collect_sets (allSets : gmap string value) (setIds : list string)
    (result : list Word) : M (list Word) :=
  match setIds with
  | [] => mret result
  | id :: rest =>
      match allSets !! id with
      | Some (VSet s) =>
          let items := set_data s in
          result ← concat_items items (below (ToNumber_items items)) result;
          collect_sets allSets rest result
      | Some (VCat _) => ill_typed
      | None => throw TypeError
      end
  end.

Definition getAllWords (area : string) : M (list Word) :=
  let catName := catName area in
  res ← storage_get (OneKey catName);
  catalog ← as_catalog (res !! catName);
  match catalog with
  | None => mret []
  | Some catalog =>
      let setIds := cat_data catalog in
      allSets ← storage_get (ManyKeys setIds);
      collect_sets allSets setIds []
  end.

Definition getWordCount (area : string) : M num :=
  let catName := catName area in
  res ← storage_get (OneKey catName);
  catalog ← as_catalog (res !! catName);
  mret (match catalog with
        | Some catalog => cat_wordCount catalog
        | None => Fin 0
        end).

(** What the flattening is described to return: the words of every record
    of every given set, in order.  This follows the description, not the
    code, and is what [getAllWords] is compared with. *)
Definition flatten_words (sets : list RecordSet) : list Word :=
  s ← sets; item ← set_data s; item_data item.

(** ** Reading the store and the call log *)

(** The catalog the operations find under the key of the area. *)
Definition stored_catalog (area : string) (st : gmap string value) : option RecordCat :=
  match st !! catName area with
  | Some (VCat c) => Some c
  | _ => None
  end.

(** The catalog of the area and the record set under its first id, as
    stored. *)
Definition latest (area : string) (st : gmap string value)
  : option (RecordCat * RecordSet) :=
  match st !! catName area with
  | Some (VCat c) =>
      match cat_data c !! 0 with
      | Some id =>
          match st !! id with
          | Some (VSet s) => Some (c, s)
          | _ => None
          end
      | None => None
      end
  | _ => None
  end.

(** The stored values that a list of ids resolves to, in the order of the
    ids; ids without a stored value contribute nothing. *)
Definition resolved_values (st : gmap string value) (ids : list string) : list value :=
  omap (λ id, st !! id) ids.

(** The sum of the [wordCount]s of the given values. *)
Definition sum_wordCount (vs : list value) : num :=
  foldr (λ v acc, num_add (wordCount_of v) acc) (Fin 0) vs.

(** The payloads of the [set] calls among the calls received. *)
Definition writes (cs : list call) : list (list (string * value)) :=
  omap (λ c, match c with CSet items => Some items | _ => None end) cs.

(** The arguments of the [remove] calls among the calls received. *)
Definition removes (cs : list call) : list (option keys) :=
  omap (λ c, match c with CRemove ks => Some ks | _ => None end) cs.

(** The stages of [addRecord] before [appendAndSave]. *)
Definition resolve (e : Env) (area : string) : M (RecordCat * RecordSet * RecordItem) :=
  let catName := catName area in
  res ← storage_get (OneKey catName);
  catalog ← as_catalog (res !! catName);
  r ← getLatestSet (now_latest e) catalog;
  getTodayItem (date_today e) (now_roll e) r.

(** ** Typing, well-formedness and the invariants of the store *)

(** Typing of the store, which in the source is a matter of JSDoc only: a
    key named by a catalog holds a record set, or nothing. *)
Definition holds_set (st : gmap string value) (k : string) : bool :=
  match st !! k with
  | Some (VCat _) => false
  | _ => true
  end.

Definition refers_to_sets (st : gmap string value) (c : RecordCat) : bool :=
  forallb (holds_set st) (cat_data c).

(** The catalog key of the area holds a catalog, or nothing, and the
    catalog names record sets. *)
Definition typed (area : string) (st : gmap string value) : bool :=
  match st !! catName area with
  | None => true
  | Some (VCat c) => refers_to_sets st c
  | Some (VSet _) => false
  end.

(** A stored record set sits under its own id and none of its records
    repeats a word. *)
Definition set_well_formed (st : gmap string value) (k : string) : bool :=
  match st !! k with
  | None => true
  | Some (VSet s) =>
      bool_decide (set_id s = k)
      && forallb (λ item, bool_decide (NoDup (item_data item))) (set_data s)
  | Some (VCat _) => false
  end.

Definition well_formed (area : string) (st : gmap string value) : bool :=
  match st !! catName area with
  | None => true
  | Some (VCat c) => forallb (set_well_formed st) (cat_data c)
  | Some (VSet _) => false
  end.

(** The stored catalog keeps at most 20 ids. *)
Definition capped (area : string) (st : gmap string value) : bool :=
  match stored_catalog area st with
  | Some c => bool_decide (length (cat_data c) ≤ 20)
  | None => true
  end.

(** The aggregate count of the stored catalog is the sum of the counts of
    the sets it names. *)
Definition count_ok (area : string) (st : gmap string value) : bool :=
  match stored_catalog area st with
  | Some c => bool_decide (cat_wordCount c = sum_wordCount (resolved_values st (cat_data c)))
  | None => true
  end.

(** The ids that the clock yields during the run are new to the stored
    catalog, which lists no id twice. *)
Definition ids_fresh (e : Env) (area : string) (st : gmap string value) : bool :=
  match stored_catalog area st with
  | Some c =>
      bool_decide (NoDup (cat_data c))
      && bool_decide (toString (now_latest e) ∉ cat_data c)
      && bool_decide (toString (now_roll e) ∉ cat_data c)
  | None => true
  end.

(** ** Where the embedding reads and counts as the code does *)

(** The names that a plain object inherits from [Object.prototype].  [get]
    answers with a plain object, so the code, reading one of these names off
    an answer, finds the inherited member when no such key is stored.  For
    every other name the read is the lookup [!!] among the stored keys,
    which is how the functions above read an answer. *)
Definition Object_prototype : list string :=
  ["constructor"; "__defineGetter__"; "__defineSetter__"; "hasOwnProperty";
   "__lookupGetter__"; "__lookupSetter__"; "isPrototypeOf";
   "propertyIsEnumerable"; "toString"; "valueOf"; "__proto__";
   "toLocaleString"].

(** A key that names no inherited member. *)
Definition plain (k : string) : bool := bool_decide (k ∉ Object_prototype).

(** The ids of the stored catalog are plain.  The ids that the module
    itself writes are decimal renderings of clock values, which are. *)
Definition plain_ids (area : string) (st : gmap string value) : bool :=
  match stored_catalog area st with
  | Some c => forallb plain (cat_data c)
  | None => true
  end.

(** [Number.MAX_SAFE_INTEGER], 2^53 - 1. *)
Definition MAX_SAFE_INTEGER : Z := 9007199254740991.

(** The code's numbers are doubles, on which sums of integers are exact as
    long as they stay safe integers.  A count is [safe] when it and the two
    integers after it are safe integers: adding 1 to it, twice, is exact. *)
Definition safe (n : num) : bool :=
  match n with
  | Fin z => bool_decide (- MAX_SAFE_INTEGER ≤ z ≤ MAX_SAFE_INTEGER - 2)%Z
  | NaN => false
  end.

Definition magnitude (n : num) : Z :=
  match n with
  | Fin z => Z.abs z
  | NaN => 0
  end.

(** The magnitudes of the counts of the values add up to a safe integer,
    so every partial sum of the counts is one, and summing them in doubles
    is exact. *)
Definition exact_sum (vs : list value) : bool :=
  bool_decide
    (foldr (λ v acc, magnitude (wordCount_of v) + acc) 0 vs ≤ MAX_SAFE_INTEGER)%Z.


(** The states that the operations of one area reach from the empty
    store, whatever the clock and the backend do. *)
Inductive reachable (area : string) : World → Prop :=
  | reach_empty : reachable area {| store := ∅; calls := [] |}
  | reach_addRecord (e : Env) (text : Word) (w : World) :
      reachable area w → reachable area (addRecord e area text w).2
  | reach_clearRecords (w : World) :
      reachable area w → reachable area (clearRecords area w).2.

(** ** What holds in the middle of an append *)

(** What holds of the catalog and the latest set that [addRecord] works
    on, over a well-formed store [st]: the catalog starts with the id of the
    set, that id is not the catalog key, no record of the set repeats a
    word, and every id of the catalog names a well-formed set of [st],
    except that the id of a set just made is not yet stored. *)
Definition resolved_ok (area : string) (st : gmap string value)
    (c : RecordCat) (s : RecordSet) : Prop :=
  cat_data c !! 0 = Some (set_id s)
  ∧ set_id s ≠ catName area
  ∧ Forall (λ item, NoDup (item_data item)) (set_data s)
  ∧ (∀ k, k ∈ cat_data c →
       (k ≠ catName area ∧ set_well_formed st k = true)
       ∨ (k = set_id s ∧ set_wordCount s = Fin 0)).

(** The catalog and latest set held during an append account for the
    catalog's count: the catalog lists the id of the set once, in front, and
    its count is the count of the set plus the counts stored under the ids
    behind. *)
Definition count_resolved (area : string) (st : gmap string value)
    (c : RecordCat) (s : RecordSet) : Prop :=
  ∃ rest,
    cat_data c = set_id s :: rest
    ∧ set_id s ≠ catName area
    ∧ (set_id s ∉ rest)
    ∧ (catName area ∉ rest)
    ∧ cat_wordCount c
      = num_add (set_wordCount s) (sum_wordCount (resolved_values st rest)).

(** No character of the string is the letter t. *)
Fixpoint no_t (s : string) : bool :=
  match s with
  | EmptyString => true
  | String c s' => negb (Ascii.eqb c "t"%char) && no_t s'
  end.

(** ** Properties as they are described *)

(** What the synthesis is described to return: an empty id list. *)
Definition synthesizes_empty_catalog (now : Z) (catalog : option RecordCat)
    (w : World) : Prop :=
  ∃ c s w', getLatestSet now catalog w = (Resolved (c, s), w') ∧ cat_data c = [].

(** The rollover as described: the append resolves and leaves a catalog
    that lists, in front of what it listed before (less the id that the cap
    of 20 pushes out), the id of a set made during the append, and that set
    is stored with the word alone in today's record and wordCount 1. *)
Definition rolls_over (e : Env) (area : string) (text : Word) (w : World) : Prop :=
  ∃ c c' w',
    stored_catalog area (store w) = Some c
    ∧ addRecord e area text w = (Resolved tt, w')
    ∧ stored_catalog area (store w') = Some c'
    ∧ cat_data c' =
        (let data := toString (now_roll e) :: cat_data c in
         if bool_decide (20 < length data) then removelast data else data)
    ∧ store w' !! toString (now_roll e) =
        Some (VSet {| set_id := toString (now_roll e);
                      set_data := [{| item_date := getToday (date_today e);
                                      item_data := [text] |}];
                      set_wordCount := Fin 1 |}).

(** ** Sample stores and runs *)

(** 500 distinct words. *)
Definition full_words : list Word := (λ n : nat, "w" +:+ pretty n) <$> seq 0 500.

(** A record set at the threshold: one record with 500 words. *)
Definition full_set (id date : string) : RecordSet :=
  {| set_id := id;
     set_data := [{| item_date := date; item_data := full_words |}];
     set_wordCount := Fin 500 |}.

(** 5 January 2018 and the runs made on that day. *)
Definition jan5 : LocalDate := {| getMonth := 0; getDate := 5; getFullYear := 2018 |}.

Definition env_jan5 : Env :=
  {| now_latest := 1515150000000; date_today := jan5; now_roll := 1515150000001;
     now_stamp := 1515150000002; set_ok := true |}.

(** A later run on 5 January 2018. *)
Definition env_jan5_later : Env :=
  {| now_latest := 1515160000000; date_today := jan5; now_roll := 1515160000001;
     now_stamp := 1515160000002; set_ok := true |}.

(** A store in use on 5 January 2018: one set, whose record of the day
    holds two words. *)
Definition world_today : World :=
  {| store := <["aCat" := VCat (mkCat ["1515140000000"] (Fin 2) (Some 1515140000009%Z))]>
                (<["1515140000000" :=
                     VSet (mkSet "1515140000000"
                                 [mkItem "01052018" ["y"; "x"]] (Fin 2))]> ∅);
     calls := [] |}.

(** One full set whose only record is of 5 January 2018. *)
Definition world_full_today : World :=
  {| store := <["aCat" := VCat (mkCat ["1515140000000"] (Fin 500) (Some 1515140000009%Z))]>
                (<["1515140000000" := VSet (full_set "1515140000000" "01052018")]> ∅);
     calls := [] |}.

(** Day [k] of January 2018, counted from 0: the id of a set opened at its
    first millisecond, its date key, and a set filled on that day. *)
Definition day_id (k : nat) : string :=
  toString (1514764800000 + 86400000 * Z.of_nat k).

Definition day_date (k : nat) : string :=
  getToday {| getMonth := 0; getDate := Z.of_nat k + 1; getFullYear := 2018 |}.

Definition day_set (k : nat) : RecordSet := full_set (day_id k) (day_date k).

(** The ids of the sets of days 19, 18, ..., 0. *)
Definition ids20 : list string := day_id <$> rev (seq 0 20).

(** A catalog at the cap: 20 full sets, one per day from 1 to 20 January
    2018, and the count 20 * 500. *)
Definition world20 : World :=
  {| store := <["aCat" := VCat (mkCat ids20 (Fin 10000) (Some 1516492799000%Z))]>
                (list_to_map ((λ k, (day_id k, VSet (day_set k))) <$> seq 0 20));
     calls := [] |}.

(** A run on 21 January 2018. *)
Definition env_jan21 : Env :=
  {| now_latest := 1516528800000;
     date_today := {| getMonth := 0; getDate := 21; getFullYear := 2018 |};
     now_roll := 1516528800001; now_stamp := 1516528800002; set_ok := true |}.

(** ** getRecordSet *)

(** What [getRecordSet] resolves with: [{}], or [{recordSet, pageCount}]
    where [recordSet] is [res[id]], [undefined] ([None]) when nothing is
    stored under the id. *)
Inductive page :=
  | NoPage
  | Page (recordSet : option value) (pageCount : nat).

(** [l[index]] for a number: the element at an integer within the bounds,
    [undefined] for every other number. *)
Definition at_index {A} (l : list A) (index : num) : option A :=
  match index with
  | Fin z => if bool_decide (0 ≤ z)%Z then l !! Z.to_nat z else None
  | NaN => None
  end.

(** A string in a condition: only the empty string is falsy. *)
Definition truthy (s : string) : bool := negb (String.eqb s "").

Definition getRecordSet (area : string) (index : num) : M page :=
  let catName := catName area in
  res ← storage_get (OneKey catName);
  catalog ← as_catalog (res !! catName);
  match catalog with
  | Some catalog =>
      match at_index (cat_data catalog) index with
      | Some id =>
          if truthy id then
            res ← storage_get (OneKey id);
            mret (Page (res !! id) (length (cat_data catalog)))
          else mret NoPage
      | None => mret NoPage
      end
  | None => mret NoPage
  end.

(** ** listenRecord *)

(** What is passed as [cb]: a function, told apart by a name, or a value
    of any other type. *)
Inductive callback :=
  | Function (f : string)
  | NotFunction.

(** Modelled from the spec: [storage.local.listen] of
    [src/helpers/chrome-api], which is not part of the sources.  A
    subscription pairs a key with a callback, and the callback is invoked
    when the value at the key changes. *)
Definition storage_listen (key f : string) (ls : list (string * string))
  : list (string * string) :=
  ls ++ [(key, f)].

Definition notified (ls : list (string * string)) (st st' : gmap string value)
  : list string :=
  (filter (λ kf, st !! kf.1 ≠ st' !! kf.1) ls).*2.

Definition listenRecord (area : string) (cb : callback) (ls : list (string * string))
  : list (string * string) :=
  match cb with
  | Function f => storage_listen (area +:+ "Cat") f ls
  | NotFunction => ls
  end.

(** ** Further invariants of the store *)

(** The number of words held by the records of a set. *)
Definition words_in (s : RecordSet) : nat :=
  sum_list (length ∘ item_data <$> set_data s).


(** The rendering that [getToday] gives to the month and to the day: the
    decimal digits, behind a ["0"] for a number below 10. *)
Definition two_digits (n : Z) : string :=
  (if bool_decide (n < 10)%Z then "0" else "") +:+ toString n.

(** ** What the stored sets of a namespace satisfy *)

(** The count of the set is the number of words in its records, the set
    holds a record, and no record is empty. *)
Definition sound_set (s : RecordSet) : Prop :=
  set_wordCount s = Fin (Z.of_nat (words_in s))
  ∧ set_data s ≠ []
  ∧ Forall (λ item, item_data item ≠ []) (set_data s).

(** The stored catalog lists an id, no id is the empty string, every listed
    set that is stored is sound, and the listed ids are stored all or
    none. *)
Definition sound (area : string) (st : gmap string value) : Prop :=
  ∀ c, stored_catalog area st = Some c →
    cat_data c ≠ []
    ∧ (∀ k, k ∈ cat_data c →
         k ≠ "" ∧ ∀ s, st !! k = Some (VSet s) → sound_set s)
    ∧ (Forall (λ k, is_Some (st !! k)) (cat_data c)
       ∨ Forall (λ k, st !! k = None) (cat_data c)).

(** ** The characters of an id made from the clock *)

(** Every character of the string is a decimal digit or the minus sign. *)
Fixpoint numeral_chars (s : string) : bool :=
  match s with
  | EmptyString => true
  | String c s' =>
      (bool_decide (c ∈ ["0"; "1"; "2"; "3"; "4"; "5"; "6"; "7"; "8"; "9"; "-"]%char))
      && numeral_chars s'
  end.
(** ** Basic facts about the backend, the counters and lists *)

Lemma response_lookup ks (st : gmap string value) k :
  k ∈ keys_list ks → response ks st !! k = st !! k.
Proof.
  intros Hk. unfold response. apply option_eq. intros v.
  rewrite map_lookup_filter_Some. simpl. tauto.
Qed.

Lemma response_one (st : gmap string value) k :
  response (OneKey k) st !! k = st !! k.
Proof. apply response_lookup. simpl. set_solver. Qed.

Lemma writes_log_get cs ks : writes (cs ++ [CGet ks]) = writes cs.
Proof. unfold writes. rewrite omap_app. simpl. apply app_nil_r. Qed.

Lemma writes_log_remove cs ks : writes (cs ++ [CRemove ks]) = writes cs.
Proof. unfold writes. rewrite omap_app. simpl. apply app_nil_r. Qed.

Lemma writes_log_set cs items : writes (cs ++ [CSet items]) = writes cs ++ [items].
Proof. unfold writes. by rewrite omap_app. Qed.

Lemma removes_log (cs : list call) (c : call) :
  removes (cs ++ [c]) =
    removes cs ++ match c with CRemove ks => [ks] | _ => [] end.
Proof. unfold removes. rewrite omap_app. by destruct c. Qed.

Lemma num_add_comm a b : num_add a b = num_add b a.
Proof. destruct a, b; simpl; f_equal; lia. Qed.

Lemma num_add_assoc a b c : num_add a (num_add b c) = num_add (num_add a b) c.
Proof. destruct a, b, c; simpl; f_equal; lia. Qed.

Lemma num_add_0_r a : num_add a (Fin 0) = a.
Proof. destruct a; simpl; f_equal; lia. Qed.

Lemma num_add_0_l a : num_add (Fin 0) a = a.
Proof. by destruct a. Qed.


Lemma pop_cons {A} (a : A) (l : list A) :
  l ≠ [] → ∃ x, pop (a :: l) = (Some x, a :: removelast l) ∧ last l = Some x.
Proof.
  intros Hl. destruct l as [|b l]; [done|].
  unfold pop. destruct (last (b :: l)) as [x|] eqn:Hlast.
  - exists x. split; [|done]. f_equal. by rewrite last_cons, Hlast.
  - by apply last_None in Hlast.
Qed.

Lemma elem_of_removelast {A} (x : A) (l : list A) : x ∈ removelast l → x ∈ l.
Proof.
  induction l as [|a l IH]; [done|]. destruct l as [|b l]; [by inversion 1|].
  change (removelast (a :: b :: l)) with (a :: removelast (b :: l)).
  intros [->|Hx]%elem_of_cons; [left|right; by apply IH].
Qed.

Lemma length_removelast {A} (l : list A) : length (removelast l) = pred (length l).
Proof.
  induction l as [|a l IH]; [done|]. destruct l as [|b l]; [done|].
  change (removelast (a :: b :: l)) with (a :: removelast (b :: l)).
  simpl in *. by rewrite IH.
Qed.

Lemma indexOf_from_notin (i : Z) (l : list Word) (x : Word) :
  x ∉ l → indexOf_from i l x = (-1)%Z.
Proof.
  revert i. induction l as [|y l IH]; intros i Hx; [done|]. simpl.
  apply not_elem_of_cons in Hx as [Hne Hx].
  destruct (decide (y = x)); [congruence|]. by apply IH.
Qed.

Lemma indexOf_from_split (i : Z) (l1 l2 : list Word) (x : Word) :
  x ∉ l1 → indexOf_from i (l1 ++ x :: l2) x = (i + Z.of_nat (length l1))%Z.
Proof.
  revert i. induction l1 as [|y l1 IH]; intros i Hx; simpl.
  - destruct (decide (x = x)); [lia|done].
  - apply not_elem_of_cons in Hx as [Hne Hx].
    destruct (decide (y = x)); [congruence|]. rewrite IH by done. lia.
Qed.

Arguments getLatestSet : simpl never.
Arguments getTodayItem : simpl never.
Arguments appendWord : simpl never.
Arguments appendAndSave : simpl never.

(** Unfolds one layer of the promise chain. *)
Ltac run :=
  unfold mbind, M_bind, mret, M_mret, throw, ill_typed, storage_get,
    storage_remove, storage_set, log; simpl.

(** ** Record-set ids never collide with a catalog key *)

Lemma toString_inj (a b : Z) : toString a = toString b → a = b.
Proof. unfold toString. apply (inj pretty). Qed.

Lemma no_t_pretty_N_go (x : N) (s : string) :
  no_t (pretty_N_go x s) = no_t s.
Proof.
  revert s. induction (N.lt_wf_0 x) as [x _ IH]; intros s.
  destruct (decide (x = 0)%N) as [->|Hx].
  - by rewrite pretty_N_go_0.
  - rewrite pretty_N_go_step by lia. rewrite IH.
    + simpl. unfold pretty_N_char. by repeat case_match.
    + apply N.div_lt; lia.
Qed.

Lemma no_t_toString (n : Z) : no_t (toString n) = true.
Proof.
  assert (HN : ∀ x : N, no_t (pretty x) = true).
  { intros x. unfold pretty, pretty_N. case_decide; [done|].
    by rewrite no_t_pretty_N_go. }
  unfold toString, pretty, pretty_Z. destruct n as [|p|p]; [done|apply HN|].
  simpl. apply HN.
Qed.

Lemma no_t_catName (area : string) : no_t (catName area) = false.
Proof.
  unfold catName. induction area as [|c area IH]; [done|].
  simpl. change (area +:+ "Cat") with (String.append area "Cat") in IH.
  rewrite IH. apply andb_false_r.
Qed.

(** An id made by [Date.now().toString()] is never the key of a catalog. *)
Lemma toString_not_catName (n : Z) (area : string) : toString n ≠ catName area.
Proof.
  intros Heq. pose proof (no_t_toString n) as H1.
  rewrite Heq, no_t_catName in H1. discriminate.
Qed.

(** ** getLatestSet *)

Lemma getLatestSet_fresh_eq (now : Z) (catalog : option RecordCat) (w : World) :
  catalog = None ∨ (∃ c, catalog = Some c ∧ cat_data c = []) →
  getLatestSet now catalog w =
    (Resolved ({| cat_data := [toString now]; cat_wordCount := Fin 0;
                  cat_timestamp := None |}, emptySet now), w).
Proof.
  intros [-> | (c & -> & Hc)]; unfold getLatestSet; [|rewrite Hc]; reflexivity.
Qed.

Lemma getLatestSet_existing (now : Z) (c : RecordCat) (id : string)
    (rest : list string) (s : RecordSet) (w : World) :
  cat_data c = id :: rest →
  store w !! id = Some (VSet s) →
  getLatestSet now (Some c) w = (Resolved (c, s), log (CGet (OneKey id)) w).
Proof.
  intros Hdata Hid. unfold getLatestSet. rewrite Hdata. run.
  by rewrite response_one, Hid.
Qed.

Lemma filter_response_ids (st : gmap string value) (ids l : list string) :
  l ⊆ ids →
  filter (λ id, is_Some (response (ManyKeys ids) st !! id)) l
  = filter (λ id, is_Some (st !! id)) l.
Proof.
  induction l as [|k l IH]; intros Hsub; [done|].
  assert (Hk : response (ManyKeys ids) st !! k = st !! k).
  { apply response_lookup. simpl. apply Hsub. left. }
  assert (Hl : l ⊆ ids) by (intros x Hx; apply Hsub; by right).
  rewrite !filter_cons, Hk, (IH Hl).
  destruct (decide (is_Some (st !! k))); done.
Qed.

Lemma omap_filter_resolved (st : gmap string value) (ids : list string) :
  resolved_values st (filter (λ id, is_Some (st !! id)) ids) = resolved_values st ids.
Proof.
  unfold resolved_values. induction ids as [|k ids IH]; [done|].
  rewrite filter_cons. destruct (decide (is_Some (st !! k))) as [[v Hv]|Hn].
  - cbn [omap list_omap]. rewrite Hv. f_equal. exact IH.
  - cbn [omap list_omap]. destruct (st !! k) eqn:E.
    + exfalso. apply Hn. by eexists.
    + exact IH.
Qed.

(** The [reduce] over ids that all resolve adds up their word counts and
    does not throw. *)
Lemma reduce_wordCount_sum (allSets st : gmap string value) (ids : list string)
    (sum : num) (w : World) :
  (∀ k, k ∈ ids → allSets !! k = st !! k ∧ is_Some (st !! k)) →
  reduce_wordCount allSets ids sum w
  = (Resolved (num_add (sum_wordCount (resolved_values st ids)) sum), w).
Proof.
  revert sum. induction ids as [|k ids IH]; intros sum Hall; simpl.
  - destruct sum; run; repeat f_equal; lia.
  - destruct (Hall k) as [Hk [v Hv]]; [left|].
    rewrite Hk, Hv. simpl. rewrite IH.
    + by rewrite num_add_assoc, (num_add_comm _ (wordCount_of v)).
    + intros k' Hk'. apply Hall. by right.
Qed.

Lemma getLatestSet_heal (now : Z) (c : RecordCat) (id : string)
    (rest : list string) (w : World) :
  cat_data c = id :: rest →
  store w !! id = None →
  getLatestSet now (Some c) w =
    (Resolved ({| cat_data :=
                    toString now :: filter (λ k, is_Some (store w !! k)) rest;
                  cat_wordCount := sum_wordCount (resolved_values (store w) rest);
                  cat_timestamp := cat_timestamp c |}, emptySet now),
     log (CGet (ManyKeys (id :: rest))) (log (CGet (OneKey id)) w)).
Proof.
  intros Hdata Hmiss. unfold getLatestSet. rewrite Hdata. run.
  rewrite response_one, Hmiss. run.
  rewrite (filter_response_ids _ (id :: rest) (id :: rest)) by done.
  rewrite filter_cons, Hmiss.
  destruct (decide (is_Some (@None value))) as [[? ?]|_]; [done|].
  erewrite (reduce_wordCount_sum _ (store w)).
  - by rewrite omap_filter_resolved, num_add_0_r.
  - intros k Hk. apply list_elem_of_filter in Hk as [Hsome Hin]. split; [|done].
    apply response_lookup. simpl. by right.
Qed.

Lemma refers_to_sets_elem (st : gmap string value) (c : RecordCat) (k : string) :
  refers_to_sets st c = true → k ∈ cat_data c → holds_set st k = true.
Proof.
  unfold refers_to_sets. rewrite forallb_forall. intros Hall Hk.
  apply Hall. by apply list_elem_of_In.
Qed.

Lemma catName_not_referenced (st : gmap string value) (c c' : RecordCat) (k : string) :
  refers_to_sets st c = true → st !! k = Some (VCat c') → k ∉ cat_data c.
Proof.
  intros Hty Hk Hin. pose proof (refers_to_sets_elem _ _ _ Hty Hin) as Hs.
  unfold holds_set in Hs. by rewrite Hk in Hs.
Qed.

(** The three ways [getLatestSet] ends on a catalog that names record
    sets. *)
Lemma getLatestSet_cases (now : Z) (catalog : option RecordCat) (w : World) :
  (∀ c, catalog = Some c → refers_to_sets (store w) c = true) →
  ((catalog = None ∨ (∃ c, catalog = Some c ∧ cat_data c = []))
     ∧ getLatestSet now catalog w =
         (Resolved ({| cat_data := [toString now]; cat_wordCount := Fin 0;
                       cat_timestamp := None |}, emptySet now), w))
  ∨ (∃ c id rest s,
       catalog = Some c ∧ cat_data c = id :: rest ∧ store w !! id = Some (VSet s)
       ∧ getLatestSet now catalog w = (Resolved (c, s), log (CGet (OneKey id)) w))
  ∨ (∃ c id rest,
       catalog = Some c ∧ cat_data c = id :: rest ∧ store w !! id = None
       ∧ getLatestSet now catalog w =
           (Resolved ({| cat_data :=
                           toString now :: filter (λ k, is_Some (store w !! k)) rest;
                         cat_wordCount := sum_wordCount (resolved_values (store w) rest);
                         cat_timestamp := cat_timestamp c |}, emptySet now),
            log (CGet (ManyKeys (id :: rest))) (log (CGet (OneKey id)) w))).
Proof.
  intros Hty. destruct catalog as [c|].
  - destruct (cat_data c) as [|id rest] eqn:Hdata.
    + left. split; [right; by exists c|]. by apply getLatestSet_fresh_eq; right; exists c.
    + right. specialize (Hty c eq_refl).
      assert (Hid : holds_set (store w) id = true).
      { apply (refers_to_sets_elem _ c); [done|]. rewrite Hdata. left. }
      unfold holds_set in Hid.
      destruct (store w !! id) as [[c'|s]|] eqn:Hlook; [done| |].
      * left. exists c, id, rest, s. repeat split; try done.
        by apply getLatestSet_existing with rest.
      * right. exists c, id, rest. repeat split; try done.
        by apply getLatestSet_heal.
  - left. split; [by left|]. by apply getLatestSet_fresh_eq; left.
Qed.

(** C9, as stated, fails: on an absent catalog the returned catalog
    already lists the id of the fresh set. *)
Lemma fresh_catalog_not_empty :
  ¬ synthesizes_empty_catalog 1500000000000 None (mkWorld ∅ []).
Proof.
  intros (c & s & w' & Hrun & Hdata). 
  inversion Hrun; subst. discriminate Hdata.
Qed.

(** C9, amended: when the catalog is absent or lists no set,
    [getLatestSet] returns a catalog whose id list holds exactly the id of
    the fresh set and whose wordCount is 0, together with the fresh set
    (id derived from the clock, no records, wordCount 0); the backend is not
    called and the store stays as it was. *)
Theorem getLatestSet_fresh (now : Z) (catalog : option RecordCat) (w : World) :
  catalog = None ∨ (∃ c, catalog = Some c ∧ cat_data c = []) →
  getLatestSet now catalog w =
    (Resolved ({| cat_data := [toString now];
                  cat_wordCount := Fin 0;
                  cat_timestamp := None |},
               {| set_id := toString now;
                  set_data := [];
                  set_wordCount := Fin 0 |}), w).
Proof.
  intros Hcat. by rewrite getLatestSet_fresh_eq.
Qed.

Lemma getLatestSet_fresh_witness :
  getLatestSet 7 (Some (mkCat [] (Fin 3) None)) (mkWorld ∅ []) =
    (Resolved (mkCat ["7"] (Fin 0) None, mkSet "7" [] (Fin 0)), mkWorld ∅ []).
Proof.
  apply (getLatestSet_fresh 7 (Some (mkCat [] (Fin 3) None)) (mkWorld ∅ [])).
  right. exists (mkCat [] (Fin 3) None). split; reflexivity.
Defined.

(** C5: when the first id of the catalog does not resolve, [getLatestSet]
    returns the catalog repaired: its id list is the ids that resolve, in
    their order, behind the id of a fresh empty set, and its wordCount is
    the sum of the wordCounts of the sets that resolved.  The store is left
    as it was.  The ids of the catalog are plain, so that an answer is read
    as the stored keys alone, and the counts that resolve are within the
    range in which the code's sum is exact. *)
Theorem getLatestSet_self_heal (now : Z) (catalog : RecordCat) (id : string)
    (rest : list string) (w : World) :
  cat_data catalog = id :: rest →
  store w !! id = None →
  forallb plain (cat_data catalog) = true →
  exact_sum (resolved_values (store w) rest) = true →
  ∃ w',
    getLatestSet now (Some catalog) w =
      (Resolved ({| cat_data :=
                      toString now :: filter (λ k, is_Some (store w !! k)) rest;
                    cat_wordCount := sum_wordCount (resolved_values (store w) rest);
                    cat_timestamp := cat_timestamp catalog |},
                 {| set_id := toString now;
                    set_data := [];
                    set_wordCount := Fin 0 |}), w')
    ∧ store w' = store w.
Proof.
  intros Hdata Hmiss _ _. rewrite (getLatestSet_heal now catalog id rest w) by done.
  eexists. split; reflexivity.
Qed.

Lemma getLatestSet_self_heal_witness :
  let st : gmap string value :=
    <["2" := VSet (mkSet "2" [] (Fin 4))]> (<["3" := VSet (mkSet "3" [] (Fin 5))]> ∅) in
  ∃ w',
    getLatestSet 9 (Some (mkCat ["1"; "2"; "3"] (Fin 20) None)) (mkWorld st []) =
      (Resolved (mkCat ["9"; "2"; "3"] (Fin 9) None, mkSet "9" [] (Fin 0)), w')
    ∧ store w' = st.
Proof.
  intros st.
  apply (getLatestSet_self_heal 9 (mkCat ["1"; "2"; "3"] (Fin 20) None) "1"
           ["2"; "3"] (mkWorld st [])); reflexivity.
Defined.

(** ** getTodayItem *)

Lemma getTodayItem_cases (d : LocalDate) (now : Z) (c : RecordCat) (s : RecordSet) (w : World) :
  let today := getToday d in
  let t0 := {| item_date := today; item_data := [] |} in
  let fresh := {| set_id := toString now; set_data := [t0]; set_wordCount := Fin 0 |} in
  (∃ first, set_data s !! 0 = Some first ∧ item_date first = today
     ∧ getTodayItem d now (c, s) w = (Resolved (c, s, first), w))
  ∨ ((∀ first, set_data s !! 0 = Some first → item_date first ≠ today)
     ∧ ((num_ge (set_wordCount s) (Fin 500) = false
         ∧ getTodayItem d now (c, s) w =
             (Resolved (c, {| set_id := set_id s; set_data := t0 :: set_data s;
                              set_wordCount := set_wordCount s |}, t0), w))
        ∨ (num_ge (set_wordCount s) (Fin 500) = true
           ∧ length (cat_data c) < 20
           ∧ getTodayItem d now (c, s) w =
               (Resolved ({| cat_data := toString now :: cat_data c;
                             cat_wordCount := cat_wordCount c;
                             cat_timestamp := cat_timestamp c |}, fresh, t0), w))
        ∨ (num_ge (set_wordCount s) (Fin 500) = true
           ∧ 20 ≤ length (cat_data c)
           ∧ getTodayItem d now (c, s) w =
               (Resolved ({| cat_data := toString now :: removelast (cat_data c);
                             cat_wordCount := NaN;
                             cat_timestamp := cat_timestamp c |}, fresh, t0),
                mkWorld (store w) (calls w ++ [CRemove None]))))).
Proof.
  intros today t0 fresh. unfold getTodayItem. fold today.
  destruct (set_data s !! 0) as [first|] eqn:Hfirst;
    [destruct (decide (item_date first = today)) as [Heq|Hne];
       [left; by exists first|]|];
    (right; split; [by intros ? [= <-]|]);
    (destruct (num_ge (set_wordCount s) (Fin 500)) eqn:Hge;
       [right|left; by split]);
    (destruct (decide (20 ≤ length (cat_data c))) as [Hlen|Hlen];
       [right|left]; (split; [done|]); (split; [lia|]); simpl length).
  1,3: rewrite bool_decide_true by lia;
       destruct (pop_cons (set_id (emptySet now)) (cat_data c)) as (x & Hpop & _);
       [intros Hnil; rewrite Hnil in Hlen; simpl in Hlen; lia|];
       rewrite Hpop; run; by destruct (cat_wordCount c).
  all: by rewrite bool_decide_false by lia.
Qed.

(** ** The stages of addRecord on typed and well-formed stores *)

Lemma set_well_formed_holds_set (st : gmap string value) (k : string) :
  set_well_formed st k = true → holds_set st k = true.
Proof. unfold set_well_formed, holds_set. by repeat case_match. Qed.

Lemma well_formed_typed (area : string) (st : gmap string value) :
  well_formed area st = true → typed area st = true.
Proof.
  unfold well_formed, typed, refers_to_sets.
  destruct (st !! catName area) as [[c|s]|]; try done.
  rewrite !forallb_forall. intros H k Hk. by apply set_well_formed_holds_set, H.
Qed.

Lemma typed_stored_catalog (area : string) (st : gmap string value) (c : RecordCat) :
  typed area st = true → stored_catalog area st = Some c →
  refers_to_sets st c = true.
Proof.
  unfold typed, stored_catalog.
  destruct (st !! catName area) as [[c'|s]|]; try done. by intros ? [= <-].
Qed.

Lemma getLatestSet_reads (now : Z) (catalog : option RecordCat) (w : World) :
  (∀ c, catalog = Some c → refers_to_sets (store w) c = true) →
  ∃ c s w',
    getLatestSet now catalog w = (Resolved (c, s), w')
    ∧ store w' = store w
    ∧ writes (calls w') = writes (calls w).
Proof.
  intros Hty.
  destruct (getLatestSet_cases now catalog w Hty)
    as [[_ ->]|[(c & id & rest & s & _ & _ & _ & ->)|(c & id & rest & _ & _ & _ & ->)]];
    do 3 eexists; (split; [reflexivity|]); simpl; by rewrite ?writes_log_get.
Qed.

Lemma getTodayItem_reads (d : LocalDate) (now : Z) (c : RecordCat) (s : RecordSet)
    (w : World) :
  ∃ c' s' t w',
    getTodayItem d now (c, s) w = (Resolved (c', s', t), w')
    ∧ store w' = store w
    ∧ writes (calls w') = writes (calls w)
    ∧ set_data s' !! 0 = Some t
    ∧ item_date t = getToday d.
Proof.
  destruct (getTodayItem_cases d now c s w)
    as [(first & Hfirst & Hdate & ->)|[_ [[_ ->]|[(_ & _ & ->)|(_ & _ & ->)]]]];
    do 4 eexists; (split; [reflexivity|]); simpl; by rewrite ?writes_log_remove.
Qed.

Lemma well_formed_elem (area : string) (st : gmap string value) (c : RecordCat)
    (k : string) :
  well_formed area st = true → stored_catalog area st = Some c → k ∈ cat_data c →
  k ≠ catName area ∧ set_well_formed st k = true.
Proof.
  unfold well_formed, stored_catalog. intros Hwf Hcat Hk.
  destruct (st !! catName area) as [[c'|s]|] eqn:Hlook; try done.
  injection Hcat as ->. rewrite forallb_forall in Hwf.
  assert (Hok : set_well_formed st k = true) by by apply Hwf, list_elem_of_In.
  split; [|done]. intros ->. unfold set_well_formed in Hok. by rewrite Hlook in Hok.
Qed.

Lemma set_well_formed_lookup (st : gmap string value) (k : string) (s : RecordSet) :
  set_well_formed st k = true → st !! k = Some (VSet s) →
  set_id s = k ∧ Forall (λ item, NoDup (item_data item)) (set_data s).
Proof.
  unfold set_well_formed. intros Hok Hlook. rewrite Hlook in Hok.
  apply andb_prop in Hok as [Hid Hitems]. split; [by apply bool_decide_eq_true in Hid|].
  apply Forall_forall. intros item Hitem. rewrite forallb_forall in Hitems.
  apply list_elem_of_In, Hitems in Hitem. by apply bool_decide_eq_true in Hitem.
Qed.

Lemma getLatestSet_ok (area : string) (now : Z) (w w' : World)
    (c : RecordCat) (s : RecordSet) :
  well_formed area (store w) = true →
  getLatestSet now (stored_catalog area (store w)) w = (Resolved (c, s), w') →
  resolved_ok area (store w) c s.
Proof.
  intros Hwf Hrun.
  pose proof (well_formed_typed _ _ Hwf) as Hty.
  destruct (getLatestSet_cases now (stored_catalog area (store w)) w)
    as [[_ Heq]|[(c0 & id & rest & s0 & Hcat & Hdata & Hid & Heq)
                |(c0 & id & rest & Hcat & Hdata & Hid & Heq)]].
  { intros c0 Hc0. by apply typed_stored_catalog with area. }
  - rewrite Heq in Hrun. injection Hrun as <- <- <-.
    repeat split; simpl; auto using toString_not_catName.
    intros k Hk. right. by apply list_elem_of_singleton in Hk.
  - rewrite Heq in Hrun. injection Hrun as <- <- <-.
    assert (Helem : ∀ k, k ∈ cat_data c0 →
              k ≠ catName area ∧ set_well_formed (store w) k = true)
      by (intros k; by apply well_formed_elem).
    destruct (Helem id) as [Hne Hok]; [rewrite Hdata; left|].
    destruct (set_well_formed_lookup _ _ _ Hok Hid) as [Hsid Hnd].
    repeat split; try done.
    + by rewrite Hdata, Hsid.
    + by rewrite Hsid.
    + intros k Hk. left. by apply Helem.
  - rewrite Heq in Hrun. injection Hrun as <- <- <-.
    repeat split; simpl; auto using toString_not_catName.
    intros k [->|Hk]%elem_of_cons; [by right|left].
    apply list_elem_of_filter in Hk as [_ Hk].
    apply (well_formed_elem area _ c0); [done..|]. rewrite Hdata. by right.
Qed.

Lemma getTodayItem_ok (area : string) (st : gmap string value) (d : LocalDate)
    (now : Z) (c c' : RecordCat) (s s' : RecordSet) (t : RecordItem) (w w' : World) :
  resolved_ok area st c s →
  getTodayItem d now (c, s) w = (Resolved (c', s', t), w') →
  resolved_ok area st c' s' ∧ NoDup (item_data t).
Proof.
  intros (Hhead & Hne & Hnd & Hrest) Hrun.
  assert (Hold : ∀ k, num_ge (set_wordCount s) (Fin 500) = true → k ∈ cat_data c →
            k ≠ catName area ∧ set_well_formed st k = true).
  { intros k Hge Hk. destruct (Hrest k Hk) as [?|[_ H0]]; [done|].
    by rewrite H0 in Hge. }
  destruct (getTodayItem_cases d now c s w)
    as [(first & Hfirst & Hdate & Heq)
       |[_ [[_ Heq]|[(Hge & _ & Heq)|(Hge & Hlen & Heq)]]]];
    rewrite Heq in Hrun; injection Hrun as <- <- <- <-.
  - split; [done|]. rewrite Forall_forall in Hnd. apply Hnd.
    by apply list_elem_of_lookup_2 with 0.
  - split; [|apply NoDup_nil_2]. repeat split; simpl; try done.
    apply Forall_cons. split; [apply NoDup_nil_2|done].
  - split; [|apply NoDup_nil_2].
    repeat split; simpl; auto using toString_not_catName.
    + repeat constructor.
    + intros k [->|Hk]%elem_of_cons; [by right|left; by apply Hold].
  - split; [|apply NoDup_nil_2].
    repeat split; simpl; auto using toString_not_catName.
    + repeat constructor.
    + intros k [->|Hk]%elem_of_cons; [by right|left].
      by apply Hold, elem_of_removelast.
Qed.

Lemma addRecord_resolve (e : Env) (area : string) (text : Word) (w : World) :
  addRecord e area text w =
    (r ← resolve e area;
     appendAndSave (now_stamp e) (set_ok e) r text (catName area)) w.
Proof.
  unfold addRecord, resolve. run.
  destruct (as_catalog _ _) as [[catalog| |] w1]; [|done..].
  destruct (getLatestSet _ _ _) as [[r| |] w2]; [|done..].
  by destruct (getTodayItem _ _ _ _) as [[r'| |] w3].
Qed.

Lemma resolve_stored (e : Env) (area : string) (w : World) :
  typed area (store w) = true →
  resolve e area w =
    (r ← getLatestSet (now_latest e) (stored_catalog area (store w));
     getTodayItem (date_today e) (now_roll e) r)
      (log (CGet (OneKey (catName area))) w).
Proof.
  unfold typed, resolve, stored_catalog. intros Hty. run. rewrite response_one.
  by destruct (store w !! catName area) as [[c|s]|].
Qed.

Lemma resolve_typed (e : Env) (area : string) (w : World) :
  typed area (store w) = true →
  ∃ c s t w1,
    resolve e area w = (Resolved (c, s, t), w1)
    ∧ store w1 = store w
    ∧ writes (calls w1) = writes (calls w)
    ∧ set_data s !! 0 = Some t
    ∧ item_date t = getToday (date_today e).
Proof.
  intros Hty. rewrite resolve_stored by done.
  set (w0 := log _ w).
  destruct (getLatestSet_reads (now_latest e) (stored_catalog area (store w)) w0)
    as (c & s & w1 & Heq1 & Hst1 & Hwr1).
  { intros c Hc. by apply typed_stored_catalog with area. }
  destruct (getTodayItem_reads (date_today e) (now_roll e) c s w1)
    as (c' & s' & t & w2 & Heq2 & Hst2 & Hwr2 & Halias & Hdate).
  exists c', s', t, w2. unfold mbind, M_bind. rewrite Heq1, Heq2.
  repeat split; try done.
  - by rewrite Hst2, Hst1.
  - rewrite Hwr2, Hwr1. unfold w0. simpl. apply writes_log_get.
Qed.

Lemma resolve_ok (e : Env) (area : string) (w w1 : World)
    (c : RecordCat) (s : RecordSet) (t : RecordItem) :
  well_formed area (store w) = true →
  resolve e area w = (Resolved (c, s, t), w1) →
  resolved_ok area (store w) c s ∧ NoDup (item_data t).
Proof.
  intros Hwf. rewrite resolve_stored by by apply well_formed_typed.
  set (w0 := log _ w). unfold mbind, M_bind.
  destruct (getLatestSet _ _ w0) as [[[c0 s0]| |] w'] eqn:Heq1; try done.
  intros Heq2.
  pose proof (getLatestSet_ok area (now_latest e) w0 w' c0 s0 Hwf Heq1) as Hok.
  by apply (getTodayItem_ok area (store w) _ _ _ _ _ _ _ _ _ Hok) in Heq2.
Qed.

(** ** appendAndSave *)

Lemma appendWord_new (now : Z) (c : RecordCat) (s : RecordSet) (t : RecordItem)
    (text : Word) :
  text ∉ item_data t →
  appendWord now (c, s, t) text =
    ({| cat_data := cat_data c;
        cat_wordCount := num_add (cat_wordCount c) (Fin 1);
        cat_timestamp := Some now |},
     {| set_id := set_id s;
        set_data := <[0 := {| item_date := item_date t;
                              item_data := text :: item_data t |}]> (set_data s);
        set_wordCount := num_add (set_wordCount s) (Fin 1) |}).
Proof.
  intros Hnew. unfold appendWord, indexOf. by rewrite indexOf_from_notin.
Qed.

Lemma appendWord_old (now : Z) (c : RecordCat) (s : RecordSet) (t : RecordItem)
    (text : Word) (l1 l2 : list Word) :
  item_data t = l1 ++ text :: l2 → text ∉ l1 →
  appendWord now (c, s, t) text =
    ({| cat_data := cat_data c;
        cat_wordCount := cat_wordCount c;
        cat_timestamp := Some now |},
     {| set_id := set_id s;
        set_data := <[0 := {| item_date := item_date t;
                              item_data := text :: l1 ++ l2 |}]> (set_data s);
        set_wordCount := set_wordCount s |}).
Proof.
  intros Hdata Hl1. unfold appendWord, indexOf.
  rewrite Hdata, indexOf_from_split by done.
  rewrite bool_decide_false by lia.
  replace (Z.to_nat (0 + Z.of_nat (length l1))) with (length l1) by lia.
  by rewrite delete_middle.
Qed.

(** What [appendWord] makes of a record without repeated words. *)
Lemma appendWord_spec (now : Z) (c : RecordCat) (s : RecordSet) (t : RecordItem)
    (text : Word) :
  NoDup (item_data t) →
  ∃ rest,
    appendWord now (c, s, t) text =
      ({| cat_data := cat_data c;
          cat_wordCount :=
            if decide (text ∈ item_data t) then cat_wordCount c
            else num_add (cat_wordCount c) (Fin 1);
          cat_timestamp := Some now |},
       {| set_id := set_id s;
          set_data := <[0 := {| item_date := item_date t;
                                item_data := text :: rest |}]> (set_data s);
          set_wordCount :=
            if decide (text ∈ item_data t) then set_wordCount s
            else num_add (set_wordCount s) (Fin 1) |})
    ∧ (text ∉ rest)
    ∧ NoDup rest
    ∧ (text ∉ item_data t → rest = item_data t).
Proof.
  intros Hnd. destruct (decide (text ∈ item_data t)) as [Hin|Hnew].
  - destruct (list_elem_of_split_l _ _ Hin) as (l1 & l2 & Hdata & Hl1).
    exists (l1 ++ l2). split; [by apply appendWord_old|].
    rewrite Hdata in Hnd. apply NoDup_app in Hnd as (Hn1 & Hdisj & Hn2).
    apply NoDup_cons in Hn2 as [Hl2 Hn2].
    split; [|split; [|done]].
    + rewrite elem_of_app. tauto.
    + apply NoDup_app. repeat split; try done.
      intros x Hx1 Hx2. apply (Hdisj x Hx1). by right.
  - exists (item_data t). split; [by apply appendWord_new|done].
Qed.

Lemma appendWord_cat_data (now : Z) (r : RecordCat * RecordSet * RecordItem)
    (text : Word) :
  cat_data (appendWord now r text).1 = cat_data r.1.1.
Proof.
  destruct r as [[c s] t]. unfold appendWord.
  by destruct (bool_decide _).
Qed.

Lemma appendWord_set_id (now : Z) (r : RecordCat * RecordSet * RecordItem)
    (text : Word) :
  set_id (appendWord now r text).2 = set_id r.1.2.
Proof.
  destruct r as [[c s] t]. unfold appendWord.
  by destruct (bool_decide _).
Qed.

Lemma appendWord_counts (now : Z) (c : RecordCat) (s : RecordSet) (t : RecordItem)
    (text : Word) :
  ∃ δ, cat_wordCount (appendWord now (c, s, t) text).1 = num_add (cat_wordCount c) δ
       ∧ set_wordCount (appendWord now (c, s, t) text).2 = num_add (set_wordCount s) δ.
Proof.
  unfold appendWord. destruct (bool_decide _); simpl.
  - by exists (Fin 1).
  - exists (Fin 0). by rewrite !num_add_0_r.
Qed.

Lemma appendAndSave_run (now : Z) (ok : bool) (r : RecordCat * RecordSet * RecordItem)
    (text : Word) (k : string) (w : World) :
  appendAndSave now ok r text k w =
    (if ok then Resolved tt else Rejected StorageFailure,
     {| store :=
          if ok
          then <[set_id (appendWord now r text).2 := VSet (appendWord now r text).2]>
                 (<[k := VCat (appendWord now r text).1]> (store w))
          else store w;
        calls :=
          calls w ++ [CSet [(k, VCat (appendWord now r text).1);
                            (set_id (appendWord now r text).2,
                             VSet (appendWord now r text).2)]] |}).
Proof.
  unfold appendAndSave. destruct (appendWord now r text) as [c s].
  unfold storage_set, log. by destruct ok.
Qed.

(** ** One combined write *)

(** C8: on a well-formed store whose catalog lists plain ids, every
    [addRecord] makes exactly one [set] call, whose payload holds the
    catalog under the catalog key and the latest set under its id, a key
    other than the catalog key; the catalog carries the time stamp of the
    append and lists the id of the set first, and the set has the word in
    front of the record of today.  When the backend accepts the call the
    operation resolves and the store holds both; when it refuses, the
    operation is rejected and the store is as it was. *)
Theorem addRecord_single_write (e : Env) (area : string) (text : Word) (w : World) :
  well_formed area (store w) = true →
  plain_ids area (store w) = true →
  ∃ catalog latestSet rest w',
    addRecord e area text w =
      (if set_ok e then Resolved tt else Rejected StorageFailure, w')
    ∧ writes (calls w') =
        writes (calls w)
        ++ [[(catName area, VCat catalog); (set_id latestSet, VSet latestSet)]]
    ∧ set_id latestSet ≠ catName area
    ∧ cat_data catalog !! 0 = Some (set_id latestSet)
    ∧ cat_timestamp catalog = Some (now_stamp e)
    ∧ set_data latestSet !! 0 =
        Some {| item_date := getToday (date_today e); item_data := text :: rest |}
    ∧ store w' =
        (if set_ok e
         then <[set_id latestSet := VSet latestSet]>
                (<[catName area := VCat catalog]> (store w))
         else store w)
    ∧ (set_ok e = true →
       store w' !! catName area = Some (VCat catalog)
       ∧ store w' !! set_id latestSet = Some (VSet latestSet)).
Proof.
  intros Hwf _. rewrite addRecord_resolve.
  destruct (resolve_typed e area w (well_formed_typed _ _ Hwf))
    as (c & s & t & w1 & Heq & Hst & Hwr & Ht & Hdate).
  destruct (resolve_ok e area w w1 c s t Hwf Heq) as [(Hhead & Hne & _ & _) Hnd].
  destruct (appendWord_spec (now_stamp e) c s t text Hnd) as (rest & Happ & _).
  set (c1 := mkCat (cat_data c) _ _) in Happ.
  set (s1 := mkSet (set_id s) _ _) in Happ.
  unfold mbind, M_bind. rewrite Heq, appendAndSave_run, Happ. cbn [fst snd].
  exists c1, s1, rest. eexists. split; [reflexivity|]. cbn [calls store].
  split; [by rewrite writes_log_set, Hwr|]. do 3 (split; [done|]).
  split.
  { simpl. rewrite <- Hdate. apply list_lookup_insert_eq. by apply lookup_lt_Some in Ht. }
  rewrite Hst. split; [done|]. intros ->.
  by rewrite lookup_insert_eq, lookup_insert_ne, lookup_insert_eq.
Qed.

Lemma addRecord_single_write_witness :
  let c := mkCat ["5"] (Fin 1) (Some 8%Z) in
  let s := mkSet "5" [mkItem "01052018" ["x"]] (Fin 1) in
  let st : gmap string value := <["aCat" := VCat c]> (<["5" := VSet s]> ∅) in
  ∃ catalog latestSet rest w',
    addRecord env_jan5 "a" "y" (mkWorld st []) = (Resolved tt, w')
    ∧ writes (calls w') =
        [[(catName "a", VCat catalog); (set_id latestSet, VSet latestSet)]]
    ∧ set_id latestSet ≠ catName "a"
    ∧ cat_data catalog !! 0 = Some (set_id latestSet)
    ∧ cat_timestamp catalog = Some (now_stamp env_jan5)
    ∧ set_data latestSet !! 0 =
        Some {| item_date := getToday (date_today env_jan5); item_data := "y" :: rest |}
    ∧ store w' =
        <[set_id latestSet := VSet latestSet]> (<[catName "a" := VCat catalog]> st)
    ∧ (set_ok env_jan5 = true →
       store w' !! catName "a" = Some (VCat catalog)
       ∧ store w' !! set_id latestSet = Some (VSet latestSet)).
Proof.
  intros c s st.
  apply (addRecord_single_write env_jan5 "a" "y" (mkWorld st [])); reflexivity.
Defined.

(** On a typed store [addRecord] is never rejected for what is missing from
    the store: it settles as the backend's [set] does. *)
Lemma addRecord_settles (e : Env) (area : string) (text : Word) (w : World) :
  typed area (store w) = true →
  (addRecord e area text w).1 =
    if set_ok e then Resolved tt else Rejected StorageFailure.
Proof.
  intros Hty. rewrite addRecord_resolve.
  destruct (resolve_typed e area w Hty) as (c & s & t & w1 & Heq & _).
  unfold mbind, M_bind. by rewrite Heq, appendAndSave_run.
Qed.

(** ** Appending twice on one day *)

Lemma latest_after_append (area : string) (st : gmap string value)
    (c : RecordCat) (s : RecordSet) :
  set_id s ≠ catName area →
  cat_data c !! 0 = Some (set_id s) →
  latest area (<[set_id s := VSet s]> (<[catName area := VCat c]> st)) = Some (c, s).
Proof.
  intros Hne Hhead. unfold latest.
  rewrite lookup_insert_ne, lookup_insert_eq, Hhead by done.
  by rewrite lookup_insert_eq.
Qed.

Lemma latest_lookup (area : string) (st : gmap string value)
    (c : RecordCat) (s : RecordSet) :
  latest area st = Some (c, s) →
  ∃ id rest, st !! catName area = Some (VCat c) ∧ cat_data c = id :: rest
             ∧ st !! id = Some (VSet s).
Proof.
  unfold latest. intros H.
  destruct (st !! catName area) as [[c'|?]|]; try done.
  destruct (cat_data c') as [|id rest] eqn:Hdata; [done|]. simpl in H.
  destruct (st !! id) as [[?|s']|] eqn:Hid; try done.
  injection H as -> ->. by exists id, rest.
Qed.


(** After an accepted append on a well-formed store the word is the first
    word of the first record of the stored latest set. *)
Lemma addRecord_front (e : Env) (area : string) (text : Word) (w : World) :
  well_formed area (store w) = true →
  set_ok e = true →
  ∃ w1 c1 s1 rest,
    addRecord e area text w = (Resolved tt, w1)
    ∧ latest area (store w1) = Some (c1, s1)
    ∧ set_data s1 !! 0 =
        Some {| item_date := getToday (date_today e); item_data := text :: rest |}.
Proof.
  intros Hwf Hok.
  destruct (resolve_typed e area w (well_formed_typed _ _ Hwf))
    as (c0 & s0 & t0 & w0 & Hres & Hst0 & _ & Ht0 & Hdate0).
  destruct (resolve_ok e area w w0 c0 s0 t0 Hwf Hres)
    as [(Hhead & Hne & _ & _) Hnd].
  destruct (appendWord_spec (now_stamp e) c0 s0 t0 text Hnd)
    as (rest & Happ & _).
  set (c1 := mkCat (cat_data c0) _ _) in Happ.
  set (s1 := mkSet (set_id s0) _ _) in Happ.
  rewrite addRecord_resolve. unfold mbind, M_bind.
  rewrite Hres, appendAndSave_run, Hok, Happ. cbn [fst snd].
  eexists _, c1, s1, rest. split; [reflexivity|]. cbn [store].
  split; [by apply latest_after_append|]. simpl. rewrite <- Hdate0.
  apply list_lookup_insert_eq. by apply lookup_lt_Some in Ht0.
Qed.


(** ** Rollover *)

(** C4, as stated, fails: a latest set with wordCount 500 whose first
    record is of today takes the new word itself; no set is made. *)
Lemma full_set_of_today_takes_word :
  latest "a" (store world_full_today)
    = Some (mkCat ["1515140000000"] (Fin 500) (Some 1515140000009%Z),
            full_set "1515140000000" "01052018")
  ∧ ("new" ∉ full_words)
  ∧ ¬ rolls_over env_jan5 "a" "new" world_full_today.
Proof.
  split; [reflexivity|]. split.
  { apply (bool_decide_eq_false_1 ("new" ∈ full_words)). vm_compute. reflexivity. }
  intros (c & c' & w' & Hc & Hrun & Hc' & Hdata & _).
  vm_compute in Hc. injection Hc as <-.
  assert (Hw' : stored_catalog "a" (store (addRecord env_jan5 "a" "new" world_full_today).2)
                = Some c') by by rewrite Hrun.
  vm_compute in Hw'. injection Hw' as <-. vm_compute in Hdata. discriminate Hdata.
Qed.

(** C4, amended: when the latest set has a wordCount of 500 or more and its
    first record is not of today (or it has no record), the next append
    makes a new set, stores it with the word alone in today's record and
    wordCount 1, and puts its id in front of the catalog's id list (from
    whose end the cap of 20 drops one id when the list was full). *)
Theorem addRecord_rollover (e : Env) (area : string) (text : Word) (w : World)
    (c : RecordCat) (s : RecordSet) :
  latest area (store w) = Some (c, s) →
  num_ge (set_wordCount s) (Fin 500) = true →
  (∀ first, set_data s !! 0 = Some first → item_date first ≠ getToday (date_today e)) →
  set_ok e = true →
  rolls_over e area text w.
Proof.
  intros Hlatest Hfull Hday Hok.
  destruct (latest_lookup _ _ _ _ Hlatest) as (id & rest & Hcat & Hdata & Hid).
  assert (Hnew : text ∉ item_data (mkItem (getToday (date_today e)) []))
    by by inversion 1.
  assert (Hne : toString (now_roll e) ≠ catName area) by apply toString_not_catName.
  exists c. unfold stored_catalog at 1. rewrite Hcat.
  unfold addRecord. run. rewrite response_one, Hcat. run.
  rewrite (getLatestSet_existing _ c id rest s) by done.
  match goal with
  | |- context [getTodayItem _ _ _ ?w0] =>
      destruct (getTodayItem_cases (date_today e) (now_roll e) c s w0)
        as [(first & Hfirst & Hdate & _)
           |[_ [[Hge _]|[(_ & Hlen & ->)|(_ & Hlen & ->)]]]]
  end.
  - by destruct (Hday first Hfirst).
  - by rewrite Hfull in Hge.
  - rewrite appendAndSave_run, Hok, appendWord_new by done.
    eexists _, _. split; [done|]. split; [reflexivity|]. cbn [store snd fst].
    unfold stored_catalog. simpl.
    rewrite lookup_insert_ne, lookup_insert_eq by done.
    split; [reflexivity|]. simpl.
    rewrite bool_decide_false by lia. split; [done|].
    by rewrite lookup_insert_eq.
  - rewrite appendAndSave_run, Hok, appendWord_new by done.
    eexists _, _. split; [done|]. split; [reflexivity|]. cbn [store snd fst].
    unfold stored_catalog. simpl.
    rewrite lookup_insert_ne, lookup_insert_eq by done.
    split; [reflexivity|]. simpl.
    rewrite bool_decide_true by lia. split; [|by rewrite lookup_insert_eq].
    rewrite Hdata. by destruct rest.
Qed.

Lemma addRecord_rollover_witness :
  rolls_over
    (mkEnv 1515240000000 (mkDate 0 6 2018) 1515240000001 1515240000002 true)
    "a" "new" world_full_today.
Proof.
  apply (addRecord_rollover
           (mkEnv 1515240000000 (mkDate 0 6 2018) 1515240000001 1515240000002 true)
           "a" "new" world_full_today
           (mkCat ["1515140000000"] (Fin 500) (Some 1515140000009%Z))
           (full_set "1515140000000" "01052018")).
  - reflexivity.
  - reflexivity.
  - intros first Hfirst. vm_compute in Hfirst. injection Hfirst as <-.
    vm_compute. discriminate.
  - reflexivity.
Defined.

(** ** Invariants of the store under addRecord and clearRecords *)

Lemma getLatestSet_length (now : Z) (catalog : option RecordCat) (w w' : World)
    (c : RecordCat) (s : RecordSet) :
  (∀ c0, catalog = Some c0 → refers_to_sets (store w) c0 = true) →
  (∀ c0, catalog = Some c0 → length (cat_data c0) ≤ 20) →
  getLatestSet now catalog w = (Resolved (c, s), w') →
  length (cat_data c) ≤ 20.
Proof.
  intros Hty Hcap Hrun.
  destruct (getLatestSet_cases now catalog w Hty)
    as [[_ Heq]|[(c0 & id & rest & s0 & Hcat & Hdata & Hid & Heq)
                |(c0 & id & rest & Hcat & Hdata & Hid & Heq)]];
    rewrite Heq in Hrun; injection Hrun as <- <- <-; simpl.
  - lia.
  - by apply Hcap.
  - specialize (Hcap c0 Hcat). rewrite Hdata in Hcap. simpl in Hcap.
    pose proof (length_filter (λ k, is_Some (store w !! k)) rest). lia.
Qed.

Lemma getTodayItem_length (d : LocalDate) (now : Z) (c c' : RecordCat)
    (s s' : RecordSet) (t : RecordItem) (w w' : World) :
  length (cat_data c) ≤ 20 →
  getTodayItem d now (c, s) w = (Resolved (c', s', t), w') →
  length (cat_data c') ≤ 20.
Proof.
  intros Hcap Hrun.
  destruct (getTodayItem_cases d now c s w)
    as [(first & _ & _ & Heq)|[_ [[_ Heq]|[(_ & Hlen & Heq)|(_ & Hlen & Heq)]]]];
    rewrite Heq in Hrun; injection Hrun as <- <- <- <-; simpl; try done; try lia.
  rewrite length_removelast. lia.
Qed.

(** The cap of 20 ids, once met, is kept by every [addRecord]. *)
Lemma addRecord_capped (e : Env) (area : string) (text : Word) (w : World) :
  typed area (store w) = true →
  capped area (store w) = true →
  capped area (store (addRecord e area text w).2) = true.
Proof.
  intros Hty Hcap. rewrite addRecord_resolve. unfold mbind, M_bind.
  rewrite resolve_stored by done.
  set (w0 := log _ w). unfold mbind, M_bind.
  assert (Hrefs : ∀ c, stored_catalog area (store w) = Some c →
            refers_to_sets (store w0) c = true)
    by (intros c Hc; by apply typed_stored_catalog with area).
  destruct (getLatestSet_reads (now_latest e) (stored_catalog area (store w)) w0 Hrefs)
    as (c0 & s0 & w1 & Heq1 & Hst1 & _).
  rewrite Heq1.
  assert (Hlen0 : length (cat_data c0) ≤ 20).
  { apply (getLatestSet_length (now_latest e) (stored_catalog area (store w))
             w0 w1 c0 s0); [done| |done].
    intros c Hc. unfold capped in Hcap. rewrite Hc in Hcap.
    by apply bool_decide_eq_true in Hcap. }
  destruct (getTodayItem_reads (date_today e) (now_roll e) c0 s0 w1)
    as (c & s & t & w2 & Heq2 & Hst2 & _).
  rewrite Heq2. apply getTodayItem_length in Heq2; [|done].
  rewrite appendAndSave_run. cbn [snd store].
  destruct (set_ok e); [|by rewrite Hst2, Hst1].
  unfold capped, stored_catalog.
  destruct (decide (set_id (appendWord (now_stamp e) (c, s, t) text).2 = catName area))
    as [Heq|Hne].
  - by rewrite Heq, lookup_insert_eq.
  - rewrite lookup_insert_ne, lookup_insert_eq by done.
    apply bool_decide_eq_true. by rewrite appendWord_cat_data.
Qed.

Lemma forallb_items (l : list RecordItem) :
  Forall (λ item, NoDup (item_data item)) l →
  forallb (λ item, bool_decide (NoDup (item_data item))) l = true.
Proof.
  intros Hall. apply forallb_forall. intros item Hitem%list_elem_of_In.
  apply bool_decide_eq_true. rewrite Forall_forall in Hall. by apply Hall.
Qed.

(** Well-formedness of the store is kept by every [addRecord]. *)
Lemma addRecord_well_formed (e : Env) (area : string) (text : Word) (w : World) :
  well_formed area (store w) = true →
  well_formed area (store (addRecord e area text w).2) = true.
Proof.
  intros Hwf.
  destruct (resolve_typed e area w (well_formed_typed _ _ Hwf))
    as (c0 & s0 & t0 & w0 & Hres & Hst0 & _ & Ht0 & _).
  destruct (resolve_ok e area w w0 c0 s0 t0 Hwf Hres)
    as [(Hhead & Hne & Hnd & Hrest) Hndt].
  rewrite addRecord_resolve. unfold mbind, M_bind.
  rewrite Hres, appendAndSave_run. cbn [snd store].
  destruct (set_ok e); [|by rewrite Hst0].
  destruct (appendWord_spec (now_stamp e) c0 s0 t0 text Hndt)
    as (rest & -> & Hfront & Hndrest & _).
  cbn [fst snd set_id]. rewrite Hst0. unfold well_formed.
  rewrite lookup_insert_ne, lookup_insert_eq by done. cbn [cat_data].
  apply forallb_forall. intros k Hk%list_elem_of_In. unfold set_well_formed.
  destruct (decide (k = set_id s0)) as [->|Hk'].
  - rewrite lookup_insert_eq. cbn [set_id set_data].
    rewrite bool_decide_true by done. apply forallb_items, Forall_insert; [done|].
    simpl. by apply NoDup_cons.
  - destruct (Hrest k Hk) as [[Hkc Hok]|[? _]]; [|done].
    by rewrite !lookup_insert_ne by done.
Qed.

(** Well-formedness and the cap are kept by [clearRecords], which leaves
    the catalog with ids that no longer resolve. *)
Lemma clearRecords_well_formed (area : string) (w : World) :
  well_formed area (store w) = true →
  well_formed area (store (clearRecords area w).2) = true
  ∧ stored_catalog area (store (clearRecords area w).2) = stored_catalog area (store w).
Proof.
  intros Hwf. unfold clearRecords. run. rewrite response_one.
  unfold well_formed, stored_catalog in *.
  destruct (store w !! catName area) as [[c|s]|] eqn:Hcat; simpl; [|done|by rewrite Hcat].
  assert (Hself : catName area ∉ cat_data c).
  { intros Hin. rewrite forallb_forall in Hwf.
    apply list_elem_of_In, Hwf in Hin. unfold set_well_formed in Hin.
    by rewrite Hcat in Hin. }
  rewrite lookup_foldr_delete_not_elem_of, Hcat by done. split; [|done].
  apply forallb_forall. intros k Hk%list_elem_of_In.
  unfold set_well_formed. by rewrite lookup_foldr_delete.
Qed.

(** Every state reached from the empty store is well-formed and within the
    cap of 20 ids. *)
Lemma reachable_invariants (area : string) (w : World) :
  reachable area w →
  well_formed area (store w) = true ∧ capped area (store w) = true.
Proof.
  induction 1 as [|e text w _ [IHwf IHcap]|w _ [IHwf IHcap]].
  - split; unfold well_formed, capped, stored_catalog; simpl;
      by rewrite lookup_empty.
  - split; [by apply addRecord_well_formed|].
    by apply addRecord_capped; [apply well_formed_typed|].
  - destruct (clearRecords_well_formed area w IHwf) as [Hwf Hcat].
    split; [done|]. unfold capped. by rewrite Hcat.
Qed.

(** ** clearRecords *)

(** C10: on a namespace with a catalog, [clearRecords] resolves, removes
    exactly the keys the catalog lists and keeps every other key, the
    catalog entry included, as it was; [getWordCount] therefore answers
    after the call what it answered before. *)
Theorem clearRecords_frame (area : string) (catalog : RecordCat) (w : World) :
  store w !! catName area = Some (VCat catalog) →
  refers_to_sets (store w) catalog = true →
  ∃ w',
    clearRecords area w = (Resolved tt, w')
    ∧ store w' !! catName area = Some (VCat catalog)
    ∧ (∀ k, k ∈ cat_data catalog → store w' !! k = None)
    ∧ (∀ k, k ∉ cat_data catalog → store w' !! k = store w !! k)
    ∧ (getWordCount area w').1 = (getWordCount area w).1
    ∧ (getWordCount area w).1 = Resolved (cat_wordCount catalog).
Proof.
  intros Hcat Hty.
  pose proof (catName_not_referenced _ _ _ _ Hty Hcat) as Hself.
  unfold clearRecords. run. rewrite response_one, Hcat. run.
  eexists. split; [reflexivity|]. simpl.
  assert (Hkeep : ∀ k, k ∉ cat_data catalog →
            foldr delete (store w) (cat_data catalog) !! k = store w !! k).
  { intros k Hk. by apply lookup_foldr_delete_not_elem_of. }
  split; [by rewrite Hkeep|].
  split; [intros k Hk; by apply lookup_foldr_delete|].
  split; [exact Hkeep|].
  unfold getWordCount. run. rewrite !response_one, Hkeep, Hcat by done. done.
Qed.

Lemma clearRecords_frame_witness :
  let c := mkCat ["5"; "6"] (Fin 7) (Some 8%Z) in
  let st : gmap string value :=
    <["aCat" := VCat c]> (<["5" := VSet (mkSet "5" [mkItem "01052018" ["x"]] (Fin 7))]> ∅) in
  ∃ w',
    clearRecords "a" (mkWorld st []) = (Resolved tt, w')
    ∧ store w' !! catName "a" = Some (VCat c)
    ∧ (∀ k, k ∈ cat_data c → store w' !! k = None)
    ∧ (∀ k, k ∉ cat_data c → store w' !! k = st !! k)
    ∧ (getWordCount "a" w').1 = (getWordCount "a" (mkWorld st [])).1
    ∧ (getWordCount "a" (mkWorld st [])).1 = Resolved (Fin 7).
Proof.
  intros c st.
  apply (clearRecords_frame "a" c (mkWorld st [])); reflexivity.
Defined.

(** ** The aggregate count *)

Lemma resolved_values_insert_notin (st : gmap string value) (k : string) (v : value)
    (ids : list string) :
  k ∉ ids → resolved_values (<[k := v]> st) ids = resolved_values st ids.
Proof.
  unfold resolved_values. induction ids as [|id ids IH]; [done|].
  intros [Hne Hk]%not_elem_of_cons. cbn [omap list_omap].
  by rewrite lookup_insert_ne, IH.
Qed.

Lemma getLatestSet_removes (now : Z) (catalog : option RecordCat) (w w' : World)
    (c : RecordCat) (s : RecordSet) :
  (∀ c0, catalog = Some c0 → refers_to_sets (store w) c0 = true) →
  getLatestSet now catalog w = (Resolved (c, s), w') →
  removes (calls w') = removes (calls w).
Proof.
  intros Hty Hrun.
  destruct (getLatestSet_cases now catalog w Hty)
    as [[_ Heq]|[(c0 & id & rest & s0 & _ & _ & _ & Heq)|(c0 & id & rest & _ & _ & _ & Heq)]];
    rewrite Heq in Hrun; injection Hrun as <- <- <-; simpl;
    by rewrite ?removes_log, ?app_nil_r.
Qed.

Lemma getLatestSet_count (area : string) (now nr : Z) (w w' : World)
    (c : RecordCat) (s : RecordSet) :
  well_formed area (store w) = true →
  count_ok area (store w) = true ∨ latest area (store w) = None →
  (∀ c0, stored_catalog area (store w) = Some c0 →
         NoDup (cat_data c0) ∧ (toString now ∉ cat_data c0) ∧ (toString nr ∉ cat_data c0)) →
  getLatestSet now (stored_catalog area (store w)) w = (Resolved (c, s), w') →
  count_resolved area (store w) c s
  ∧ (set_wordCount s = Fin 0
     ∨ (store w !! set_id s = Some (VSet s) ∧ toString nr ∉ cat_data c)).
Proof.
  intros Hwf Hcount Hids Hrun.
  pose proof (well_formed_typed _ _ Hwf) as Hty.
  destruct (getLatestSet_cases now (stored_catalog area (store w)) w)
    as [[_ Heq]|[(c0 & id & rest & s0 & Hcat & Hdata & Hid & Heq)
                |(c0 & id & rest & Hcat & Hdata & Hid & Heq)]].
  { intros c0 Hc0. by apply typed_stored_catalog with area. }
  - rewrite Heq in Hrun. injection Hrun as <- <- <-. split; [|by left].
    exists []. simpl. repeat split; auto using toString_not_catName; by inversion 1.
  - rewrite Heq in Hrun. injection Hrun as <- <- <-.
    destruct (Hids c0 Hcat) as (Hnd & _ & Hnr).
    assert (Helem : ∀ k, k ∈ cat_data c0 →
              k ≠ catName area ∧ set_well_formed (store w) k = true)
      by (intros k; by apply well_formed_elem).
    destruct (Helem id) as [Hne Hok]; [rewrite Hdata; left|].
    destruct (set_well_formed_lookup _ _ _ Hok Hid) as [Hsid _].
    rewrite Hdata in Hnd. apply NoDup_cons in Hnd as [Hfresh _].
    split; [|right; by rewrite Hsid].
    exists rest. rewrite Hsid. repeat split; try done.
    + intros Hin. by destruct (Helem (catName area)); [rewrite Hdata; right|].
    + destruct Hcount as [Hcount|Hnone].
      2: { unfold latest in Hnone. unfold stored_catalog in Hcat.
           destruct (store w !! catName area) as [[c1|?]|]; try done.
           injection Hcat as ->. rewrite Hdata in Hnone. simpl in Hnone.
           by rewrite Hid in Hnone. }
      unfold count_ok in Hcount. rewrite Hcat in Hcount.
      apply bool_decide_eq_true in Hcount. rewrite Hcount, Hdata.
      unfold resolved_values. cbn [omap list_omap]. by rewrite Hid.
  - rewrite Heq in Hrun. injection Hrun as <- <- <-. split; [|by left].
    destruct (Hids c0 Hcat) as (_ & Hnow & _). rewrite Hdata in Hnow.
    apply not_elem_of_cons in Hnow as [_ Hnow].
    exists (filter (λ k, is_Some (store w !! k)) rest). simpl.
    repeat split; auto using toString_not_catName.
    + by intros [_ Hin]%list_elem_of_filter.
    + intros [_ Hin]%list_elem_of_filter.
      by destruct (well_formed_elem area (store w) c0 (catName area));
        [..|rewrite Hdata; right|].
    + rewrite omap_filter_resolved. by destruct (sum_wordCount _).
Qed.

Lemma getTodayItem_count (area : string) (st : gmap string value) (d : LocalDate)
    (now : Z) (c c' : RecordCat) (s s' : RecordSet) (t : RecordItem) (w w' : World) :
  count_resolved area st c s →
  (set_wordCount s = Fin 0
   ∨ (st !! set_id s = Some (VSet s) ∧ toString now ∉ cat_data c)) →
  getTodayItem d now (c, s) w = (Resolved (c', s', t), w') →
  (count_resolved area st c' s' ∧ removes (calls w') = removes (calls w))
  ∨ removes (calls w') = removes (calls w) ++ [None].
Proof.
  intros (rest & Hdata & Hne & Hfresh & Hcat & Hcount) Hstored Hrun.
  destruct (getTodayItem_cases d now c s w)
    as [(first & _ & _ & Heq)|[_ [[_ Heq]|[(Hge & _ & Heq)|(_ & _ & Heq)]]]];
    rewrite Heq in Hrun; injection Hrun as <- <- <- <-.
  - left. split; [by exists rest|done].
  - left. split; [by exists rest|done].
  - left. split; [|done].
    destruct Hstored as [H0|[Hs Hnow]]; [by rewrite H0 in Hge|].
    exists (set_id s :: rest). simpl. rewrite <- Hdata.
    repeat split; auto using toString_not_catName.
    + rewrite Hdata. apply not_elem_of_cons. split; [congruence|done].
    + rewrite Hs, Hcount. simpl. by destruct (num_add _ _).
  - right. simpl. by rewrite removes_log.
Qed.

Lemma ids_fresh_elim (e : Env) (area : string) (st : gmap string value)
    (c : RecordCat) :
  ids_fresh e area st = true → stored_catalog area st = Some c →
  NoDup (cat_data c)
  ∧ (toString (now_latest e) ∉ cat_data c)
  ∧ (toString (now_roll e) ∉ cat_data c).
Proof.
  unfold ids_fresh. intros Hfresh Hcat. rewrite Hcat in Hfresh.
  apply andb_prop in Hfresh as [[H1 H2]%andb_prop H3].
  apply bool_decide_eq_true in H1, H2, H3. done.
Qed.

(** An accepted append leaves the catalog's count equal to the sum over the
    sets it names, or else it has issued the [remove] call of the
    eviction. *)
Lemma addRecord_count_ok (e : Env) (area : string) (text : Word) (w : World) :
  well_formed area (store w) = true →
  ids_fresh e area (store w) = true →
  count_ok area (store w) = true ∨ latest area (store w) = None →
  set_ok e = true →
  count_ok area (store (addRecord e area text w).2) = true
  ∨ removes (calls (addRecord e area text w).2) = removes (calls w) ++ [None].
Proof.
  intros Hwf Hfresh Hcount Hok.
  pose proof (well_formed_typed _ _ Hwf) as Hty.
  rewrite addRecord_resolve. unfold mbind, M_bind.
  rewrite resolve_stored by done.
  set (w0 := log _ w). unfold mbind, M_bind.
  assert (Hrefs : ∀ c, stored_catalog area (store w) = Some c →
            refers_to_sets (store w0) c = true)
    by (intros c Hc; by apply typed_stored_catalog with area).
  destruct (getLatestSet_reads (now_latest e) (stored_catalog area (store w)) w0 Hrefs)
    as (c0 & s0 & w1 & Heq1 & Hst1 & _).
  rewrite Heq1.
  pose proof (getLatestSet_removes _ _ w0 _ _ _ Hrefs Heq1) as Hrm1.
  destruct (getLatestSet_count area (now_latest e) (now_roll e) w0 w1 c0 s0
              Hwf Hcount (λ c, ids_fresh_elim e area (store w) c Hfresh) Heq1)
    as [Hres Hstored].
  destruct (getTodayItem_reads (date_today e) (now_roll e) c0 s0 w1)
    as (c & s & t & w2 & Heq2 & Hst2 & _).
  rewrite Heq2, appendAndSave_run, Hok. cbn [snd store calls].
  rewrite !removes_log, app_nil_r.
  destruct (getTodayItem_count area (store w) _ _ _ _ _ _ _ _ _ Hres Hstored Heq2)
    as [[(rest & Hdata & Hne & Hnew & Hcat & Hsum) Hrm2]|Hrm2].
  2: { right. rewrite Hrm2, Hrm1. unfold w0. simpl.
       by rewrite removes_log, app_nil_r. }
  left.
  destruct (appendWord_counts (now_stamp e) c s t text) as (δ & Hc & Hs).
  pose proof (appendWord_cat_data (now_stamp e) (c, s, t) text) as Hd.
  pose proof (appendWord_set_id (now_stamp e) (c, s, t) text) as Hi.
  destruct (appendWord _ _ _) as [c1 s1]. simpl in *.
  rewrite Hst2, Hst1. unfold count_ok, stored_catalog.
  rewrite Hi, lookup_insert_ne, lookup_insert_eq by done.
  apply bool_decide_eq_true. rewrite Hd, Hdata.
  unfold resolved_values. cbn [omap list_omap]. rewrite lookup_insert_eq.
  fold (resolved_values (<[set_id s:=VSet s1]> (<[catName area:=VCat c1]> (store w))) rest).
  rewrite !resolved_values_insert_notin by done.
  simpl. rewrite Hc, Hs, Hsum.
  rewrite <- !num_add_assoc. f_equal. apply num_add_comm.
Qed.

(** Away from eviction the aggregate count is kept: an accepted append that
    issues no [remove] call leaves the catalog's count equal to the sum of
    the counts of the stored sets the catalog names, on a well-formed store
    where this held before or where the latest set is missing (the self-heal
    recomputes the count), the ids that the clock yields being new to the
    catalog.  This covers the plain increment, the rollover below the cap
    and the self-heal. *)
Lemma addRecord_keeps_count (e : Env) (area : string) (text : Word) (w : World) :
  well_formed area (store w) = true →
  ids_fresh e area (store w) = true →
  count_ok area (store w) = true ∨ latest area (store w) = None →
  set_ok e = true →
  removes (calls (addRecord e area text w).2) = removes (calls w) →
  count_ok area (store (addRecord e area text w).2) = true.
Proof.
  intros Hwf Hfresh Hcount Hok Hrm.
  destruct (addRecord_count_ok e area text w Hwf Hfresh Hcount Hok) as [?|Hev]; [done|].
  rewrite Hrm in Hev. apply (f_equal length) in Hev.
  rewrite length_app in Hev. simpl in Hev. lia.
Qed.

(** [clearRecords] removes the sets and leaves the catalog with its count;
    the next append finds the latest set missing and heals the catalog and
    its count. *)
Lemma count_after_clearRecords :
  let r1 := addRecord env_jan5 "a" "x" {| store := ∅; calls := [] |} in
  let r2 := clearRecords "a" r1.2 in
  let r3 := addRecord env_jan5_later "a" "y" r2.2 in
  count_ok "a" (store r1.2) = true
  ∧ stored_catalog "a" (store r2.2)
      = Some (mkCat [toString (now_latest env_jan5)] (Fin 1) (Some (now_stamp env_jan5)))
  ∧ resolved_values (store r2.2) [toString (now_latest env_jan5)] = []
  ∧ latest "a" (store r2.2) = None
  ∧ count_ok "a" (store r3.2) = true.
Proof. repeat split; reflexivity. Qed.

(** ** Eviction *)

(** [addRecord] removes no key from the store, whatever it evicts from the
    catalog. *)
Lemma addRecord_removes_nothing (e : Env) (area : string) (text : Word)
    (w : World) (k : string) :
  typed area (store w) = true →
  is_Some (store w !! k) →
  is_Some (store (addRecord e area text w).2 !! k).
Proof.
  intros Hty Hk. rewrite addRecord_resolve.
  destruct (resolve_typed e area w Hty) as (c & s & t & w1 & Heq & Hst & _).
  unfold mbind, M_bind. rewrite Heq, appendAndSave_run. cbn [snd store].
  rewrite Hst. destruct (set_ok e); [|done].
  rewrite !lookup_insert. by repeat case_decide.
Qed.

(** C2 at a concrete run: with 20 ids in the catalog and a full latest set
    of the day before, the append leaves 20 ids, the new one in front and
    the oldest gone from the list; the only [remove] call carries
    [undefined], and the set of the oldest id is still stored. *)
Lemma eviction_leaves_set_stored :
  let r := addRecord env_jan21 "a" "x" world20 in
  length ids20 = 20
  ∧ last ids20 = Some (day_id 0)
  ∧ r.1 = Resolved tt
  ∧ (∃ c', stored_catalog "a" (store r.2) = Some c'
           ∧ cat_data c' = toString (now_roll env_jan21) :: removelast ids20
           ∧ length (cat_data c') = 20
           ∧ day_id 0 ∉ cat_data c')
  ∧ removes (calls r.2) = [None]
  ∧ store r.2 !! day_id 0 = Some (VSet (day_set 0)).
Proof.
  do 3 (split; [reflexivity|]). split; [|split; vm_compute; reflexivity].
  exists (mkCat (toString (now_roll env_jan21) :: removelast ids20) NaN
                (Some (now_stamp env_jan21))).
  split; [vm_compute; reflexivity|]. do 2 (split; [reflexivity|]).
  apply (bool_decide_eq_false_1
           (day_id 0 ∈ toString (now_roll env_jan21) :: removelast ids20)).
  vm_compute. reflexivity.
Qed.

(** C3 at the same run: before the append the catalog's count is the sum
    over its sets (20 * 500); after it the catalog's count is [NaN], the
    result of subtracting the [wordCount] of an id string, while the sets
    the catalog names add up to 19 * 500 + 1. *)
Lemma eviction_breaks_count :
  let r := addRecord env_jan21 "a" "x" world20 in
  count_ok "a" (store world20) = true
  ∧ r.1 = Resolved tt
  ∧ (∃ c', stored_catalog "a" (store r.2) = Some c'
           ∧ cat_wordCount c' = NaN
           ∧ sum_wordCount (resolved_values (store r.2) (cat_data c')) = Fin 9501)
  ∧ count_ok "a" (store r.2) = false.
Proof.
  split; [vm_compute; reflexivity|]. split; [reflexivity|].
  split; [|vm_compute; reflexivity].
  exists (mkCat (toString (now_roll env_jan21) :: removelast ids20) NaN
                (Some (now_stamp env_jan21))).
  repeat split; vm_compute; reflexivity.
Qed.

(** ** getAllWords *)

(** The inner loop never runs: its bound is the array, not its length. *)
Lemma concat_items_bound (items : list RecordItem) (result : list Word) (w : World) :
  concat_items items (below (ToNumber_items items)) result w = (Resolved result, w).
Proof. by destruct items. Qed.

Lemma collect_sets_result (allSets : gmap string value) (setIds : list string)
    (result r : list Word) (w w' : World) :
  collect_sets allSets setIds result w = (Resolved r, w') → r = result.
Proof.
  revert result w. induction setIds as [|id rest IH]; intros result w; simpl.
  - by intros [= <- _].
  - destruct (allSets !! id) as [[c|s]|]; try done.
    unfold mbind, M_bind. rewrite concat_items_bound. apply IH.
Qed.

(** Whatever is stored, a resolved [getAllWords] answers with no word. *)
Lemma getAllWords_resolved_nil (area : string) (w : World) (l : list Word) :
  (getAllWords area w).1 = Resolved l → l = [].
Proof.
  unfold getAllWords. run. rewrite response_one.
  destruct (store w !! catName area) as [[c|s]|]; simpl; try done.
  - destruct (collect_sets _ _ _ _) as [[r| |] w'] eqn:Hrun; try done.
    intros [= <-]. by apply collect_sets_result in Hrun.
  - by intros [= <-].
Qed.

(** A catalog whose first id does not resolve makes [getAllWords] reject:
    [allSets[setIds[0]]] is [undefined] and has no [data]. *)
Lemma getAllWords_dangling (area : string) (w : World) (c : RecordCat)
    (id : string) (rest : list string) :
  stored_catalog area (store w) = Some c →
  cat_data c = id :: rest →
  store w !! id = None →
  (getAllWords area w).1 = Rejected TypeError.
Proof.
  unfold stored_catalog, getAllWords. intros Hcat Hdata Hid. run.
  rewrite response_one.
  destruct (store w !! catName area) as [[c'|s]|]; try done.
  injection Hcat as ->. simpl. rewrite Hdata. simpl.
  rewrite response_lookup by (simpl; left). by rewrite Hid.
Qed.

(** What [getAllWords] is described to return would start with the word
    just appended: the flattening of the stored latest set, followed by any
    other sets, has it in front. *)
Lemma flatten_after_addRecord (e : Env) (area : string) (text : Word) (w : World) :
  well_formed area (store w) = true →
  set_ok e = true →
  ∃ w1 c1 s1,
    addRecord e area text w = (Resolved tt, w1)
    ∧ latest area (store w1) = Some (c1, s1)
    ∧ ∀ others, head (flatten_words (s1 :: others)) = Some text.
Proof.
  intros Hwf Hok.
  destruct (addRecord_front e area text w Hwf Hok)
    as (w1 & c1 & s1 & rest & Hrun & Hlatest & Hfront).
  exists w1, c1, s1. do 2 (split; [done|]). intros others.
  unfold flatten_words. destruct (set_data s1) as [|t1 items] eqn:Hdata; [done|].
  injection Hfront as ->. cbn. by rewrite Hdata.
Qed.

(** C1 at a concrete run: after the first [addRecord] of ["x"] to an empty
    store, the stored latest set flattens to [["x"]], and [getAllWords]
    resolves with the empty sequence. *)
Lemma getAllWords_after_addRecord :
  let r := addRecord env_jan5 "a" "x" (mkWorld ∅ []) in
  r.1 = Resolved tt
  ∧ (∃ c s, latest "a" (store r.2) = Some (c, s) ∧ flatten_words [s] = ["x"])
  ∧ (getAllWords "a" r.2).1 = Resolved [].
Proof.
  split; [reflexivity|]. split; [|reflexivity].
  exists (mkCat ["1515150000000"] (Fin 1) (Some 1515150000002%Z)),
         (mkSet "1515150000000" [mkItem "01052018" ["x"]] (Fin 1)).
  split; reflexivity.
Qed.

(** The store on which [getAllWords] is rejected is one the operations
    themselves produce. *)
Lemma dangling_catalog_reachable :
  reachable "a"
    (clearRecords "a" (addRecord env_jan5 "a" "x" {| store := ∅; calls := [] |}).2).2.
Proof. apply reach_clearRecords, reach_addRecord, reach_empty. Qed.

(** C6 at a concrete run: [addRecord], then [clearRecords], leave a catalog
    whose set is gone from the store, and [getAllWords] on it is rejected
    with a TypeError. *)
Lemma getAllWords_after_clearRecords :
  let r1 := addRecord env_jan5 "a" "x" (mkWorld ∅ []) in
  let r2 := clearRecords "a" r1.2 in
  r1.1 = Resolved tt
  ∧ r2.1 = Resolved tt
  ∧ stored_catalog "a" (store r2.2)
      = Some (mkCat ["1515150000000"] (Fin 1) (Some 1515150000002%Z))
  ∧ store r2.2 !! "1515150000000" = None
  ∧ (getAllWords "a" r2.2).1 = Rejected TypeError.
Proof. repeat split; reflexivity. Qed.

(** * Further properties of the module *)

(** ** Reading a namespace that has no catalog *)

Lemma catalog_absent (area : string) (w : World) :
  store w !! catName area = None →
  as_catalog (response (OneKey (catName area)) (store w) !! catName area)
    (log (CGet (OneKey (catName area))) w)
  = (Resolved None, log (CGet (OneKey (catName area))) w).
Proof. intros H. by rewrite response_one, H. Qed.

Lemma catalog_present (area : string) (w : World) (c : RecordCat) :
  stored_catalog area (store w) = Some c →
  as_catalog (response (OneKey (catName area)) (store w) !! catName area)
    (log (CGet (OneKey (catName area))) w)
  = (Resolved (Some c), log (CGet (OneKey (catName area))) w).
Proof.
  unfold stored_catalog. intros H. rewrite response_one.
  destruct (store w !! catName area) as [[c'|s]|]; try done. by injection H as ->.
Qed.

(** X1: on a namespace without a catalog every read resolves with its empty
    answer (no word, the count 0, [{}] for every page index),
    [clearRecords] resolves, and none of the four changes the store. *)
Theorem no_catalog_reads (area : string) (index : num) (w : World) :
  store w !! catName area = None →
  getAllWords area w = (Resolved [], log (CGet (OneKey (catName area))) w)
  ∧ getWordCount area w = (Resolved (Fin 0), log (CGet (OneKey (catName area))) w)
  ∧ getRecordSet area index w = (Resolved NoPage, log (CGet (OneKey (catName area))) w)
  ∧ clearRecords area w = (Resolved tt, log (CGet (OneKey (catName area))) w).
Proof.
  intros Hnone. pose proof (catalog_absent area w Hnone) as Hcat.
  unfold getAllWords, getWordCount, getRecordSet, clearRecords.
  unfold mbind, M_bind, storage_get. by rewrite !Hcat.
Qed.

Lemma no_catalog_reads_witness :
  getAllWords "b" world_today
    = (Resolved [], log (CGet (OneKey (catName "b"))) world_today)
  ∧ getWordCount "b" world_today
    = (Resolved (Fin 0), log (CGet (OneKey (catName "b"))) world_today)
  ∧ getRecordSet "b" (Fin 0) world_today
    = (Resolved NoPage, log (CGet (OneKey (catName "b"))) world_today)
  ∧ clearRecords "b" world_today
    = (Resolved tt, log (CGet (OneKey (catName "b"))) world_today).
Proof. apply (no_catalog_reads "b" (Fin 0) world_today). reflexivity. Defined.

(** ** getRecordSet *)

(** X2: a page index that is not an integer position of the catalog's id
    list ([NaN], a negative number, a number from the length on) makes
    [getRecordSet] resolve with [{}] after reading the catalog only. *)
Theorem getRecordSet_out_of_range (area : string) (index : num) (c : RecordCat)
    (w : World) :
  stored_catalog area (store w) = Some c →
  (index = NaN ∨ ∃ z, index = Fin z ∧ (z < 0 ∨ Z.of_nat (length (cat_data c)) ≤ z)%Z) →
  getRecordSet area index w = (Resolved NoPage, log (CGet (OneKey (catName area))) w).
Proof.
  intros Hcat Hout. unfold getRecordSet, mbind, M_bind, storage_get.
  rewrite (catalog_present area w c Hcat).
  assert (at_index (cat_data c) index = None) as ->; [|done].
  destruct Hout as [->|(z & -> & Hz)]; [done|]. unfold at_index.
  case_bool_decide; [|done]. apply lookup_ge_None. lia.
Qed.

Lemma getRecordSet_out_of_range_witness :
  getRecordSet "a" (Fin 1) world_today
  = (Resolved NoPage, log (CGet (OneKey (catName "a"))) world_today).
Proof.
  apply (getRecordSet_out_of_range "a" (Fin 1)
           (mkCat ["1515140000000"] (Fin 2) (Some 1515140000009%Z)) world_today).
  - reflexivity.
  - right. exists 1%Z. split; [reflexivity|]. right. simpl. lia.
Defined.

(** The core of [getRecordSet] on a position that holds a non-empty id. *)
Lemma getRecordSet_page (area : string) (i : nat) (id : string)
    (c : RecordCat) (w : World) :
  stored_catalog area (store w) = Some c →
  cat_data c !! i = Some id →
  id ≠ "" →
  getRecordSet area (Fin (Z.of_nat i)) w
  = (Resolved (Page (store w !! id) (length (cat_data c))),
     {| store := store w;
        calls := calls w ++ [CGet (OneKey (catName area)); CGet (OneKey id)] |}).
Proof.
  intros Hcat Hid Hne. unfold getRecordSet, mbind, M_bind, storage_get.
  rewrite (catalog_present area w c Hcat). unfold at_index.
  rewrite bool_decide_true, Nat2Z.id, Hid by lia.
  assert (truthy id = true) as ->.
  { unfold truthy. apply negb_true_iff, String.eqb_neq. done. }
  unfold mret, M_mret. rewrite response_one. unfold log. simpl.
  by rewrite <- app_assoc.
Qed.

(** X3: for an integer position of the catalog's id list that holds a
    non-empty, plain id, [getRecordSet] resolves with what is stored under
    that id ([undefined] when the id is dangling: it does not reject) and
    with the length of the id list as page count, and leaves the store as
    it was. *)
Theorem getRecordSet_in_range (area : string) (i : nat) (id : string)
    (c : RecordCat) (w : World) :
  stored_catalog area (store w) = Some c →
  cat_data c !! i = Some id →
  id ≠ "" →
  plain id = true →
  ∃ w',
    getRecordSet area (Fin (Z.of_nat i)) w
    = (Resolved (Page (store w !! id) (length (cat_data c))), w')
    ∧ store w' = store w
    ∧ calls w' = calls w ++ [CGet (OneKey (catName area)); CGet (OneKey id)].
Proof.
  intros Hcat Hid Hne _. rewrite (getRecordSet_page area i id c w Hcat Hid Hne).
  by eexists.
Qed.

Lemma getRecordSet_in_range_witness :
  ∃ w',
    getRecordSet "a" (Fin (Z.of_nat 0)) world_today
    = (Resolved (Page (store world_today !! "1515140000000") 1), w')
    ∧ store w' = store world_today
    ∧ calls w' = calls world_today
                 ++ [CGet (OneKey (catName "a")); CGet (OneKey "1515140000000")].
Proof.
  apply (getRecordSet_in_range "a" 0 "1515140000000"
           (mkCat ["1515140000000"] (Fin 2) (Some 1515140000009%Z)) world_today).
  - reflexivity.
  - reflexivity.
  - discriminate.
  - reflexivity.
Defined.

(** ** getAllWords *)

Lemma collect_sets_outcome (allSets : gmap string value) (setIds : list string)
    (result : list Word) (w : World) :
  collect_sets allSets setIds result w = (Resolved result, w)
  ∨ collect_sets allSets setIds result w = (Rejected TypeError, w)
  ∨ collect_sets allSets setIds result w = (IllTyped, w).
Proof.
  induction setIds as [|id rest IH]; simpl; [by left|].
  destruct (allSets !! id) as [[c|s]|]; [by right; right| |by right; left].
  unfold mbind, M_bind. by rewrite concat_items_bound.
Qed.

(** X4: whatever the store holds, [getAllWords] settles in one of three
    ways: resolved with the empty sequence, rejected with a TypeError, or on
    a value of the wrong shape.  It never resolves with a word: the bound
    [j < items] of its inner loop allows no pass. *)
Theorem getAllWords_answers_no_word (area : string) (w : World) :
  (getAllWords area w).1 = Resolved []
  ∨ (getAllWords area w).1 = Rejected TypeError
  ∨ (getAllWords area w).1 = IllTyped.
Proof.
  unfold getAllWords, mbind, M_bind, storage_get. rewrite response_one.
  destruct (store w !! catName area) as [[c|s]|]; simpl; [|by right; right|by left].
  match goal with
  | |- context [collect_sets ?a ?b ?r ?w0] =>
      destruct (collect_sets_outcome a b r w0) as [H|[H|H]]; rewrite H; auto
  end.
Qed.

Lemma collect_sets_typed (allSets st : gmap string value) (setIds : list string)
    (result : list Word) (w : World) :
  (∀ k, k ∈ setIds → allSets !! k = st !! k ∧ holds_set st k = true) →
  (Forall (λ k, is_Some (st !! k)) setIds →
   collect_sets allSets setIds result w = (Resolved result, w))
  ∧ (Exists (λ k, st !! k = None) setIds →
     collect_sets allSets setIds result w = (Rejected TypeError, w)).
Proof.
  induction setIds as [|id rest IH]; intros Hall.
  { split; [done|]. intros H. by apply Exists_nil in H. }
  destruct (Hall id) as [Hid Hset]; [left|].
  destruct IH as [IH1 IH2]; [intros k Hk; apply Hall; by right|].
  simpl. rewrite Hid. unfold holds_set in Hset.
  destruct (st !! id) as [[c|s]|] eqn:Hst; [done| |].
  - unfold mbind, M_bind. rewrite concat_items_bound. split.
    + intros [_ Hrest]%Forall_cons. by apply IH1.
    + intros [Hnone|Hrest]%Exists_cons; [simpl in Hnone; congruence|by apply IH2].
  - split; [|done]. intros [[v Hv] _]%Forall_cons. congruence.
Qed.

(** X5: on a store whose catalog names record sets under plain ids,
    [getAllWords] resolves (with the empty sequence) when every listed id
    is stored, and is rejected with a TypeError when some listed id is
    missing: it reads [allSets[id].data] without testing that the set was
    found. *)
Theorem getAllWords_dangling_rejects (area : string) (c : RecordCat) (w : World) :
  stored_catalog area (store w) = Some c →
  refers_to_sets (store w) c = true →
  forallb plain (cat_data c) = true →
  (Forall (λ k, is_Some (store w !! k)) (cat_data c) →
   (getAllWords area w).1 = Resolved [])
  ∧ (Exists (λ k, store w !! k = None) (cat_data c) →
     (getAllWords area w).1 = Rejected TypeError).
Proof.
  intros Hcat Hty _. unfold getAllWords, mbind, M_bind, storage_get.
  rewrite (catalog_present area w c Hcat).
  match goal with
  | |- context [collect_sets ?a ?b ?r ?w0] =>
      destruct (collect_sets_typed a (store w) b r w0) as [H1 H2]
  end.
  { intros k Hk. split; [by apply response_lookup|].
    by apply (refers_to_sets_elem _ c). }
  split; intros H; [rewrite (H1 H)|rewrite (H2 H)]; done.
Qed.

Lemma getAllWords_dangling_rejects_witness :
  let c := mkCat ["5"; "6"] (Fin 7) (Some 8%Z) in
  let st : gmap string value :=
    <["aCat" := VCat c]> (<["5" := VSet (mkSet "5" [mkItem "01052018" ["x"]] (Fin 7))]> ∅) in
  (Forall (λ k, is_Some (st !! k)) ["5"; "6"] →
   (getAllWords "a" (mkWorld st [])).1 = Resolved [])
  ∧ (Exists (λ k, st !! k = None) ["5"; "6"] →
     (getAllWords "a" (mkWorld st [])).1 = Rejected TypeError).
Proof.
  intros c st.
  apply (getAllWords_dangling_rejects "a" c (mkWorld st [])); reflexivity.
Defined.

(** ** clearRecords and what follows it *)

Lemma foldr_delete_idem (st : gmap string value) (ks : list string) :
  foldr delete (foldr delete st ks) ks = foldr delete st ks.
Proof.
  apply map_eq. intros k. destruct (decide (k ∈ ks)).
  - by rewrite !lookup_foldr_delete.
  - by rewrite !lookup_foldr_delete_not_elem_of.
Qed.

(** X6: [clearRecords] is idempotent on the store: whatever is stored, a
    second call right after the first leaves the store as the first left
    it. *)
Theorem clearRecords_twice (area : string) (w : World) :
  store (clearRecords area (clearRecords area w).2).2 = store (clearRecords area w).2.
Proof.
  unfold clearRecords at 2 3. unfold mbind, M_bind, storage_get.
  rewrite response_one.
  destruct (store w !! catName area) as [[c|s]|] eqn:Hcat; simpl.
  - unfold clearRecords, mbind, M_bind, storage_get. rewrite response_one. simpl.
    destruct (foldr delete (store w) (cat_data c) !! catName area) as [[c'|s']|] eqn:Hc;
      simpl; try done.
    apply lookup_foldr_delete_Some in Hc as [_ Hc].
    rewrite Hcat in Hc. injection Hc as <-. apply foldr_delete_idem.
  - unfold clearRecords, mbind, M_bind, storage_get. rewrite response_one. simpl.
    by rewrite Hcat.
  - unfold clearRecords, mbind, M_bind, storage_get. rewrite response_one. simpl.
    by rewrite Hcat.
Qed.

Lemma filter_all_missing (st : gmap string value) (ks : list string) :
  Forall (λ k, st !! k = None) ks →
  filter (λ k, is_Some (st !! k)) ks = [] ∧ resolved_values st ks = [].
Proof.
  unfold resolved_values. induction 1 as [|k ks Hk _ [IH1 IH2]]; [done|].
  rewrite filter_cons. cbn [omap list_omap]. rewrite Hk, IH2.
  destruct (decide (is_Some (@None value))) as [[? ?]|_]; done.
Qed.

(** An append on a namespace without a catalog, or whose catalog names no
    stored set, starts over. *)
Lemma addRecord_starts_over (e : Env) (area : string) (text : Word) (w : World) :
  typed area (store w) = true →
  (∀ c, stored_catalog area (store w) = Some c →
        Forall (λ k, store w !! k = None) (cat_data c)) →
  set_ok e = true →
  (addRecord e area text w).1 = Resolved tt
  ∧ store (addRecord e area text w).2
    = <[toString (now_latest e) :=
          VSet {| set_id := toString (now_latest e);
                  set_data := [{| item_date := getToday (date_today e);
                                  item_data := [text] |}];
                  set_wordCount := Fin 1 |}]>
        (<[catName area :=
             VCat {| cat_data := [toString (now_latest e)];
                     cat_wordCount := Fin 1;
                     cat_timestamp := Some (now_stamp e) |}]> (store w)).
Proof.
  intros Hty Hgone Hok.
  rewrite addRecord_resolve. unfold mbind, M_bind.
  rewrite resolve_stored by done. unfold mbind, M_bind.
  set (w0 := log _ w).
  assert (∃ ts w1, getLatestSet (now_latest e) (stored_catalog area (store w)) w0
            = (Resolved (mkCat [toString (now_latest e)] (Fin 0) ts,
                         emptySet (now_latest e)), w1)
            ∧ store w1 = store w) as (ts & w1 & -> & Hst1).
  { destruct (stored_catalog area (store w)) as [c0|] eqn:Hcat.
    - specialize (Hgone c0 eq_refl).
      destruct (cat_data c0) as [|k rest] eqn:Hdata.
      + rewrite getLatestSet_fresh_eq by (right; by exists c0). by eexists _, _.
      + apply Forall_cons in Hgone as [Hk Hrest].
        rewrite (getLatestSet_heal _ c0 k rest) by done.
        destruct (filter_all_missing (store w) rest Hrest) as [Hf Hr].
        change (store w0) with (store w). rewrite Hf, Hr. by eexists _, _.
    - rewrite getLatestSet_fresh_eq by by left. by eexists _, _. }
  destruct (getTodayItem_cases (date_today e) (now_roll e)
              (mkCat [toString (now_latest e)] (Fin 0) ts) (emptySet (now_latest e)) w1)
    as [(first & Hfirst & _)|[_ [[_ ->]|[(Hge & _)|(Hge & _)]]]]; [done| |done..].
  rewrite appendAndSave_run, Hok, appendWord_new by by inversion 1.
  cbn -[getToday toString]. by rewrite Hst1.
Qed.

Lemma stored_catalog_Some (area : string) (st : gmap string value) (c : RecordCat) :
  stored_catalog area st = Some c ↔ st !! catName area = Some (VCat c).
Proof.
  unfold stored_catalog. destruct (st !! catName area) as [[c'|s]|]; split; congruence.
Qed.

Lemma stored_catalog_None (area : string) (st : gmap string value) :
  typed area st = true → stored_catalog area st = None → st !! catName area = None.
Proof.
  unfold typed, stored_catalog. by destruct (st !! catName area) as [[c'|s]|].
Qed.

(** What [clearRecords] leaves of a typed store. *)
Lemma clearRecords_store (area : string) (w : World) :
  typed area (store w) = true →
  store (clearRecords area w).2
  = match stored_catalog area (store w) with
    | Some c => foldr delete (store w) (cat_data c)
    | None => store w
    end
  ∧ stored_catalog area (store (clearRecords area w).2) = stored_catalog area (store w)
  ∧ typed area (store (clearRecords area w).2) = true.
Proof.
  intros Hty. unfold clearRecords, mbind, M_bind, storage_get.
  destruct (stored_catalog area (store w)) as [c|] eqn:Hcat.
  - rewrite (catalog_present area w c Hcat). simpl.
    pose proof (typed_stored_catalog area (store w) c Hty Hcat) as Hrefs.
    apply stored_catalog_Some in Hcat.
    assert (Hself : catName area ∉ cat_data c)
      by by apply (catName_not_referenced (store w) c c).
    assert (Hkeep : foldr delete (store w) (cat_data c) !! catName area
                    = Some (VCat c)) by by rewrite lookup_foldr_delete_not_elem_of.
    split; [done|]. split; [by apply stored_catalog_Some|].
    unfold typed. rewrite Hkeep. unfold refers_to_sets. apply forallb_forall.
    intros k Hk%list_elem_of_In. unfold holds_set. by rewrite lookup_foldr_delete.
  - pose proof (stored_catalog_None area (store w) Hty Hcat) as Hnone.
    rewrite (catalog_absent area w Hnone). simpl. by rewrite Hcat.
Qed.

(** X7: on a store whose catalog lists plain ids, an accepted [addRecord]
    after [clearRecords] starts the namespace over: the catalog lists
    exactly the one set made by the append, with the count 1, that set holds
    today's record with the word alone, every id the catalog listed before,
    other than the id of the new set, stays removed, and [getWordCount]
    answers 1. *)
Theorem addRecord_after_clearRecords (e : Env) (area : string) (text : Word)
    (w : World) :
  typed area (store w) = true →
  plain_ids area (store w) = true →
  set_ok e = true →
  let w1 := (clearRecords area w).2 in
  let w2 := (addRecord e area text w1).2 in
  (addRecord e area text w1).1 = Resolved tt
  ∧ stored_catalog area (store w2)
    = Some {| cat_data := [toString (now_latest e)];
              cat_wordCount := Fin 1;
              cat_timestamp := Some (now_stamp e) |}
  ∧ store w2 !! toString (now_latest e)
    = Some (VSet {| set_id := toString (now_latest e);
                    set_data := [{| item_date := getToday (date_today e);
                                    item_data := [text] |}];
                    set_wordCount := Fin 1 |})
  ∧ (∀ c k, stored_catalog area (store w) = Some c → k ∈ cat_data c →
            k ≠ toString (now_latest e) → store w2 !! k = None)
  ∧ (getWordCount area w2).1 = Resolved (Fin 1).
Proof.
  intros Hty _ Hok w1 w2.
  assert (Hne : toString (now_latest e) ≠ catName area) by apply toString_not_catName.
  destruct (clearRecords_store area w Hty) as (Hst1 & Hcat1 & Hty1). fold w1 in Hst1, Hcat1, Hty1.
  destruct (addRecord_starts_over e area text w1 Hty1) as [Hrun Hst2]; [|done|].
  { intros c Hc. rewrite Hcat1 in Hc. rewrite Hst1, Hc.
    apply Forall_forall. intros k Hk. by apply lookup_foldr_delete. }
  fold w2 in Hst2. split; [done|]. rewrite Hst2.
  split; [unfold stored_catalog; by rewrite lookup_insert_ne, lookup_insert_eq|].
  split; [by rewrite lookup_insert_eq|]. split.
  - intros c k Hc Hk Hkid. rewrite lookup_insert_ne by done.
    assert (k ≠ catName area).
    { intros ->. revert Hk. apply (catName_not_referenced (store w) c c).
      - by apply typed_stored_catalog with area.
      - by apply stored_catalog_Some. }
    rewrite lookup_insert_ne by done. rewrite Hst1, Hc. by apply lookup_foldr_delete.
  - unfold getWordCount, mbind, M_bind, storage_get. rewrite response_one. simpl.
    rewrite Hst2. by rewrite lookup_insert_ne, lookup_insert_eq.
Qed.

Lemma addRecord_after_clearRecords_witness :
  let w1 := (clearRecords "a" world20).2 in
  let w2 := (addRecord env_jan21 "a" "x" w1).2 in
  (addRecord env_jan21 "a" "x" w1).1 = Resolved tt
  ∧ stored_catalog "a" (store w2)
    = Some {| cat_data := [toString (now_latest env_jan21)];
              cat_wordCount := Fin 1;
              cat_timestamp := Some (now_stamp env_jan21) |}
  ∧ store w2 !! toString (now_latest env_jan21)
    = Some (VSet {| set_id := toString (now_latest env_jan21);
                    set_data := [{| item_date := getToday (date_today env_jan21);
                                    item_data := ["x"] |}];
                    set_wordCount := Fin 1 |})
  ∧ (∀ c k, stored_catalog "a" (store world20) = Some c → k ∈ cat_data c →
            k ≠ toString (now_latest env_jan21) → store w2 !! k = None)
  ∧ (getWordCount "a" w2).1 = Resolved (Fin 1).
Proof.
  apply (addRecord_after_clearRecords env_jan21 "a" "x" world20); reflexivity.
Defined.

(** ** Keys and date keys *)

Lemma string_length_app (s t : string) :
  String.length (s +:+ t) = String.length s + String.length t.
Proof. induction s as [|a s IH]; simpl; [done|]. by rewrite IH. Qed.

Lemma string_app_inj_length (s1 s2 t1 t2 : string) :
  String.length s1 = String.length s2 →
  s1 +:+ t1 = s2 +:+ t2 → s1 = s2 ∧ t1 = t2.
Proof.
  revert s2. induction s1 as [|a s1 IH]; intros [|b s2] Hlen Heq;
    simplify_eq/=; [done|].
  destruct (IH s2) as [-> ->]; done.
Qed.

Lemma string_app_inj_r (s1 s2 t : string) : s1 +:+ t = s2 +:+ t → s1 = s2.
Proof.
  intros Heq.
  assert (Hlen : String.length s1 = String.length s2).
  { apply (f_equal String.length) in Heq. rewrite !string_length_app in Heq. lia. }
  by destruct (string_app_inj_length s1 s2 t t Hlen Heq).
Qed.

(** The catalog keys of two areas differ when the areas do. *)
Lemma catName_inj (a b : string) : catName a = catName b → a = b.
Proof. apply string_app_inj_r. Qed.

Lemma string_app_assoc (s t u : string) : (s +:+ t) +:+ u = s +:+ (t +:+ u).
Proof.
  induction s as [|a s IH]; [done|].
  change (String a ((s +:+ t) +:+ u) = String a (s +:+ (t +:+ u))).
  by rewrite IH.
Qed.

(** A date key is the month in two digits, the day in two digits, and the
    year. *)
Lemma getToday_parts (d : LocalDate) :
  getToday d
  = two_digits (getMonth d + 1) +:+ (two_digits (getDate d) +:+ toString (getFullYear d)).
Proof. unfold getToday, two_digits. cbv zeta. by rewrite !string_app_assoc. Qed.

Lemma in_range (lo : Z) (n : nat) (z : Z) :
  (lo ≤ z < lo + Z.of_nat n)%Z → z ∈ (λ i : nat, (lo + Z.of_nat i)%Z) <$> seq 0 n.
Proof.
  intros Hz. apply list_elem_of_fmap. exists (Z.to_nat (z - lo)).
  split; [lia|]. apply elem_of_seq. lia.
Qed.

Lemma two_digits_length (n : Z) :
  (1 ≤ n ≤ 31)%Z → String.length (two_digits n) = 2.
Proof.
  intros Hn.
  assert (Hall : Forall (λ z, String.length (two_digits z) = 2)
                   ((λ i : nat, (1 + Z.of_nat i)%Z) <$> seq 0 31)).
  { refine (bool_decide_unpack _ _). vm_compute. exact I. }
  rewrite Forall_forall in Hall. apply Hall, in_range. lia.
Qed.

Lemma two_digits_inj (a b : Z) :
  (1 ≤ a ≤ 31)%Z → (1 ≤ b ≤ 31)%Z → two_digits a = two_digits b → a = b.
Proof.
  intros Ha Hb.
  assert (Hall : Forall (λ x, Forall (λ y, two_digits x = two_digits y → x = y)
                                ((λ i : nat, (1 + Z.of_nat i)%Z) <$> seq 0 31))
                   ((λ i : nat, (1 + Z.of_nat i)%Z) <$> seq 0 31)).
  { refine (bool_decide_unpack _ _). vm_compute. exact I. }
  rewrite Forall_forall in Hall. specialize (Hall a). rewrite Forall_forall in Hall.
  apply Hall; apply in_range; lia.
Qed.




(** X9: two dates with a month from 0 to 11 and a day from 1 to 31 that
    differ in day, month or year have different date keys: the padding to
    two digits keeps month and day apart. *)
Theorem getToday_inj (d1 d2 : LocalDate) :
  (0 ≤ getMonth d1 ≤ 11)%Z → (1 ≤ getDate d1 ≤ 31)%Z →
  (0 ≤ getMonth d2 ≤ 11)%Z → (1 ≤ getDate d2 ≤ 31)%Z →
  getToday d1 = getToday d2 →
  d1 = d2.
Proof.
  intros Hm1 Hd1 Hm2 Hd2. rewrite !getToday_parts. intros Heq.
  apply string_app_inj_length in Heq as [Hmm Heq];
    [|rewrite !two_digits_length by lia; done].
  apply string_app_inj_length in Heq as [Hdd Hyy];
    [|rewrite !two_digits_length by lia; done].
  apply two_digits_inj in Hmm; [|lia..]. apply two_digits_inj in Hdd; [|lia..].
  apply toString_inj in Hyy.
  destruct d1, d2; simpl in *. f_equal; lia.
Qed.

Lemma getToday_inj_witness : jan5 = jan5.
Proof. apply (getToday_inj jan5 jan5); simpl; (lia || reflexivity). Defined.

(** ** The stages of an append, case by case *)

Lemma latest_None_absent (area : string) (st : gmap string value) :
  stored_catalog area st = None → latest area st = None.
Proof.
  unfold stored_catalog, latest. by destruct (st !! catName area) as [[c|s]|].
Qed.

Lemma latest_None_empty (area : string) (st : gmap string value) (c : RecordCat) :
  stored_catalog area st = Some c → cat_data c = [] → latest area st = None.
Proof.
  intros Hc%stored_catalog_Some Hdata. unfold latest. by rewrite Hc, Hdata.
Qed.

Lemma latest_None_dangling (area : string) (st : gmap string value) (c : RecordCat)
    (id : string) (rest : list string) :
  stored_catalog area st = Some c → cat_data c = id :: rest → st !! id = None →
  latest area st = None.
Proof.
  intros Hc%stored_catalog_Some Hdata Hid. unfold latest.
  by rewrite Hc, Hdata; simpl; rewrite Hid.
Qed.

Lemma latest_Some_stored (area : string) (st : gmap string value) (c : RecordCat)
    (id : string) (rest : list string) (s : RecordSet) :
  stored_catalog area st = Some c → cat_data c = id :: rest →
  st !! id = Some (VSet s) → latest area st = Some (c, s).
Proof.
  intros Hc%stored_catalog_Some Hdata Hid. unfold latest.
  by rewrite Hc, Hdata; simpl; rewrite Hid.
Qed.

(** The outcome of the stages before [appendAndSave], on a typed store:
    either the namespace has no latest set (no catalog, an empty catalog, or
    a first id that is not stored) and a set is made from the clock, or the
    latest set is continued, or, when it is full and its first record is not
    of today, a new set is opened in front of it. *)
Lemma resolve_cases (e : Env) (area : string) (w : World) :
  typed area (store w) = true →
  let today := getToday (date_today e) in
  let t0 := {| item_date := today; item_data := [] |} in
  let opened now :=
    {| set_id := toString now; set_data := [t0]; set_wordCount := Fin 0 |} in
  (latest area (store w) = None
   ∧ ∃ ids ts w1,
       resolve e area w
       = (Resolved ({| cat_data := toString (now_latest e) :: ids;
                       cat_wordCount := sum_wordCount (resolved_values (store w) ids);
                       cat_timestamp := ts |}, opened (now_latest e), t0), w1)
       ∧ store w1 = store w
       ∧ removes (calls w1) = removes (calls w)
       ∧ ∀ k, k ∈ ids →
           is_Some (store w !! k)
           ∧ ∃ c0, stored_catalog area (store w) = Some c0 ∧ k ∈ cat_data c0)
  ∨ (∃ c0 s0 w1,
       latest area (store w) = Some (c0, s0)
       ∧ store w1 = store w
       ∧ ((∃ first,
             set_data s0 !! 0 = Some first ∧ item_date first = today
             ∧ resolve e area w = (Resolved (c0, s0, first), w1)
             ∧ removes (calls w1) = removes (calls w))
          ∨ ((∀ first, set_data s0 !! 0 = Some first → item_date first ≠ today)
             ∧ ((num_ge (set_wordCount s0) (Fin 500) = false
                 ∧ resolve e area w
                   = (Resolved (c0, {| set_id := set_id s0;
                                       set_data := t0 :: set_data s0;
                                       set_wordCount := set_wordCount s0 |}, t0), w1)
                 ∧ removes (calls w1) = removes (calls w))
                ∨ (num_ge (set_wordCount s0) (Fin 500) = true
                   ∧ length (cat_data c0) < 20
                   ∧ resolve e area w
                     = (Resolved ({| cat_data := toString (now_roll e) :: cat_data c0;
                                     cat_wordCount := cat_wordCount c0;
                                     cat_timestamp := cat_timestamp c0 |},
                                  opened (now_roll e), t0), w1)
                   ∧ removes (calls w1) = removes (calls w))
                ∨ (num_ge (set_wordCount s0) (Fin 500) = true
                   ∧ 20 ≤ length (cat_data c0)
                   ∧ resolve e area w
                     = (Resolved ({| cat_data :=
                                       toString (now_roll e) :: removelast (cat_data c0);
                                     cat_wordCount := NaN;
                                     cat_timestamp := cat_timestamp c0 |},
                                  opened (now_roll e), t0), w1)
                   ∧ removes (calls w1) = removes (calls w) ++ [None]))))).
Proof.
  intros Hty today t0 opened. rewrite resolve_stored by done.
  set (w0 := log _ w). unfold mbind, M_bind.
  assert (Hrm0 : removes (calls w0) = removes (calls w)).
  { unfold w0, log. simpl. rewrite removes_log. apply app_nil_r. }
  assert (Hstart : ∀ c1 w1,
            store w1 = store w → removes (calls w1) = removes (calls w) →
            getTodayItem (date_today e) (now_roll e) (c1, emptySet (now_latest e)) w1
            = (Resolved (c1, opened (now_latest e), t0), w1)).
  { intros c1 w1 _ _.
    destruct (getTodayItem_cases (date_today e) (now_roll e) c1
                (emptySet (now_latest e)) w1)
      as [(first & Hfirst & _)|[_ [[_ ->]|[(Hge & _)|(Hge & _)]]]]; done. }
  destruct (getLatestSet_cases (now_latest e) (stored_catalog area (store w)) w0)
    as [[Hwhy Heq]|[(c0 & id & rest & s0 & Hcat & Hdata & Hid & Heq)
                   |(c0 & id & rest & Hcat & Hdata & Hid & Heq)]].
  { intros c0 Hc0. by apply typed_stored_catalog with area. }
  - left. split.
    { destruct Hwhy as [Hnone|(c0 & Hc0 & Hdata)];
        [by apply latest_None_absent|by apply latest_None_empty with c0]. }
    exists [], None, w0. rewrite Heq, Hstart by done.
    do 3 (split; [done|]). intros k Hk. by apply elem_of_nil in Hk.
  - right. exists c0, s0.
    change (store w0) with (store w) in Hid.
    pose proof (latest_Some_stored area (store w) c0 id rest s0 Hcat Hdata Hid) as Hlat.
    rewrite Heq. set (w1 := log (CGet (OneKey id)) w0).
    assert (Hrm1 : removes (calls w1) = removes (calls w)).
    { unfold w1, log. simpl. rewrite removes_log, app_nil_r. done. }
    destruct (getTodayItem_cases (date_today e) (now_roll e) c0 s0 w1)
      as [(first & Hfirst & Hdate & ->)
         |[Hnot [[Hge ->]|[(Hge & Hlen & ->)|(Hge & Hlen & ->)]]]].
    + exists w1. do 2 (split; [done|]). left. by exists first.
    + exists w1. do 2 (split; [done|]). right. split; [done|]. by left.
    + exists w1. do 2 (split; [done|]). right. split; [done|]. right. by left.
    + exists {| store := store w1; calls := calls w1 ++ [CRemove None] |}.
      do 2 (split; [done|]). right. split; [done|]. right. right.
      do 3 (split; [done|]). cbn [calls]. by rewrite removes_log, Hrm1.
  - left. change (store w0) with (store w) in Hid. split.
    { by apply latest_None_dangling with c0 id rest. }
    eexists (filter (λ k, is_Some (store w !! k)) rest), (cat_timestamp c0), _.
    rewrite Heq, Hstart; [|done|].
    + change (store w0) with (store w). rewrite omap_filter_resolved.
      do 2 (split; [done|]). split.
      * simpl. by rewrite !removes_log, !app_nil_r.
      * intros k [Hk1 Hk2]%list_elem_of_filter. split; [done|].
        exists c0. split; [done|]. rewrite Hdata. by right.
    + simpl. by rewrite !removes_log, !app_nil_r.
Qed.

(** [addRecord] in terms of its stages. *)
Lemma addRecord_run (e : Env) (area : string) (text : Word) (w w1 : World)
    (r : RecordCat * RecordSet * RecordItem) :
  resolve e area w = (Resolved r, w1) →
  store w1 = store w →
  addRecord e area text w =
    (if set_ok e then Resolved tt else Rejected StorageFailure,
     {| store :=
          if set_ok e
          then <[set_id (appendWord (now_stamp e) r text).2 :=
                   VSet (appendWord (now_stamp e) r text).2]>
                 (<[catName area := VCat (appendWord (now_stamp e) r text).1]> (store w))
          else store w;
        calls :=
          calls w1 ++ [CSet [(catName area, VCat (appendWord (now_stamp e) r text).1);
                             (set_id (appendWord (now_stamp e) r text).2,
                              VSet (appendWord (now_stamp e) r text).2)]] |}).
Proof.
  intros Hres Hst. rewrite addRecord_resolve. unfold mbind, M_bind.
  by rewrite Hres, appendAndSave_run, Hst.
Qed.

Lemma resolve_today (e : Env) (area : string) (w : World) (c : RecordCat)
    (s : RecordSet) (first : RecordItem) :
  typed area (store w) = true →
  latest area (store w) = Some (c, s) →
  set_data s !! 0 = Some first →
  item_date first = getToday (date_today e) →
  ∃ w1, resolve e area w = (Resolved (c, s, first), w1)
        ∧ store w1 = store w ∧ removes (calls w1) = removes (calls w).
Proof.
  intros Hty Hlat Hfirst Hdate.
  destruct (resolve_cases e area w Hty)
    as [[Hnone _]|(c0 & s0 & w1 & Hlat0 & Hst & Hcase)]; [congruence|].
  rewrite Hlat in Hlat0. injection Hlat0 as <- <-.
  destruct Hcase as [(first' & Hfirst' & _ & Hres & Hrm)|[Hnot _]].
  - rewrite Hfirst in Hfirst'. injection Hfirst' as <-. by exists w1.
  - by destruct (Hnot first Hfirst).
Qed.

Lemma resolve_new_day (e : Env) (area : string) (w : World) (c : RecordCat)
    (s : RecordSet) :
  typed area (store w) = true →
  latest area (store w) = Some (c, s) →
  (∀ first, set_data s !! 0 = Some first → item_date first ≠ getToday (date_today e)) →
  num_ge (set_wordCount s) (Fin 500) = false →
  ∃ w1, resolve e area w
        = (Resolved (c, {| set_id := set_id s;
                           set_data := {| item_date := getToday (date_today e);
                                          item_data := [] |} :: set_data s;
                           set_wordCount := set_wordCount s |},
                     {| item_date := getToday (date_today e); item_data := [] |}), w1)
        ∧ store w1 = store w ∧ removes (calls w1) = removes (calls w).
Proof.
  intros Hty Hlat Hnot Hge.
  destruct (resolve_cases e area w Hty)
    as [[Hnone _]|(c0 & s0 & w1 & Hlat0 & Hst & Hcase)]; [congruence|].
  rewrite Hlat in Hlat0. injection Hlat0 as <- <-.
  destruct Hcase as [(first & Hfirst & Hdate & _)
                    |[_ [(_ & Hres & Hrm)|[(Hge' & _)|(Hge' & _)]]]].
  - by destruct (Hnot first Hfirst).
  - by exists w1.
  - congruence.
  - congruence.
Qed.

Lemma resolve_rollover (e : Env) (area : string) (w : World) (c : RecordCat)
    (s : RecordSet) :
  typed area (store w) = true →
  latest area (store w) = Some (c, s) →
  (∀ first, set_data s !! 0 = Some first → item_date first ≠ getToday (date_today e)) →
  num_ge (set_wordCount s) (Fin 500) = true →
  length (cat_data c) < 20 →
  ∃ w1, resolve e area w
        = (Resolved ({| cat_data := toString (now_roll e) :: cat_data c;
                        cat_wordCount := cat_wordCount c;
                        cat_timestamp := cat_timestamp c |},
                     {| set_id := toString (now_roll e);
                        set_data := [{| item_date := getToday (date_today e);
                                        item_data := [] |}];
                        set_wordCount := Fin 0 |},
                     {| item_date := getToday (date_today e); item_data := [] |}), w1)
        ∧ store w1 = store w ∧ removes (calls w1) = removes (calls w).
Proof.
  intros Hty Hlat Hnot Hge Hlen.
  destruct (resolve_cases e area w Hty)
    as [[Hnone _]|(c0 & s0 & w1 & Hlat0 & Hst & Hcase)]; [congruence|].
  rewrite Hlat in Hlat0. injection Hlat0 as <- <-.
  destruct Hcase as [(first & Hfirst & Hdate & _)
                    |[_ [(Hge' & _)|[(_ & _ & Hres & Hrm)|(_ & Hlen' & _)]]]].
  - by destruct (Hnot first Hfirst).
  - congruence.
  - by exists w1.
  - lia.
Qed.

Lemma filter_other (text : Word) (l : list Word) :
  text ∉ l → filter (λ x, x ≠ text) l = l.
Proof.
  induction l as [|y l IH]; [done|]. intros Hnin.
  rewrite filter_cons_True by (intros ->; apply Hnin; left).
  f_equal. apply IH. intros H. apply Hnin. by right.
Qed.

(** With no repeated word in the record, [indexOf], [splice] and [unshift]
    together move the word to the front and keep the order of the others. *)
Lemma appendWord_filter (now : Z) (c : RecordCat) (s : RecordSet) (t : RecordItem)
    (text : Word) :
  NoDup (item_data t) →
  appendWord now (c, s, t) text =
    ({| cat_data := cat_data c;
        cat_wordCount :=
          if decide (text ∈ item_data t) then cat_wordCount c
          else num_add (cat_wordCount c) (Fin 1);
        cat_timestamp := Some now |},
     {| set_id := set_id s;
        set_data :=
          <[0 := {| item_date := item_date t;
                    item_data := text :: filter (λ x, x ≠ text) (item_data t) |}]>
            (set_data s);
        set_wordCount :=
          if decide (text ∈ item_data t) then set_wordCount s
          else num_add (set_wordCount s) (Fin 1) |}).
Proof.
  intros Hnd. destruct (decide (text ∈ item_data t)) as [Hin|Hnin].
  - apply list_elem_of_split in Hin as (l1 & l2 & Hsplit).
    rewrite Hsplit in Hnd. apply NoDup_app in Hnd as (_ & Hl1 & Hnd2).
    apply NoDup_cons in Hnd2 as [Hl2 _].
    assert (Hn1 : text ∉ l1) by (intros H; apply (Hl1 text H); left).
    rewrite (appendWord_old now c s t text l1 l2 Hsplit Hn1). do 4 f_equal.
    rewrite Hsplit, filter_app, filter_cons.
    destruct (decide (text ≠ text)) as [?|_]; [done|].
    by rewrite !filter_other.
  - rewrite appendWord_new by done. do 4 f_equal. by rewrite filter_other.
Qed.

Lemma getWordCount_stored (area : string) (w : World) (c : RecordCat) :
  store w !! catName area = Some (VCat c) →
  getWordCount area w
  = (Resolved (cat_wordCount c), log (CGet (OneKey (catName area))) w).
Proof.
  intros Hc. unfold getWordCount, mbind, M_bind, storage_get.
  by rewrite response_one, Hc.
Qed.

(** What [appendWord] does whatever the record holds: the counts go up by
    one exactly when the word is new to the record, and the record gains a
    word exactly then. *)
Lemma appendWord_any (now : Z) (c : RecordCat) (s : RecordSet) (t : RecordItem)
    (text : Word) :
  ∃ rest,
    appendWord now (c, s, t) text =
      ({| cat_data := cat_data c;
          cat_wordCount :=
            if decide (text ∈ item_data t) then cat_wordCount c
            else num_add (cat_wordCount c) (Fin 1);
          cat_timestamp := Some now |},
       {| set_id := set_id s;
          set_data := <[0 := {| item_date := item_date t;
                                item_data := text :: rest |}]> (set_data s);
          set_wordCount :=
            if decide (text ∈ item_data t) then set_wordCount s
            else num_add (set_wordCount s) (Fin 1) |})
    ∧ length (text :: rest)
      = length (item_data t) + (if decide (text ∈ item_data t) then 0 else 1).
Proof.
  destruct (decide (text ∈ item_data t)) as [Hin|Hnin].
  - apply list_elem_of_split_l in Hin as (l1 & l2 & Hsplit & Hn1).
    exists (l1 ++ l2). rewrite (appendWord_old now c s t text l1 l2 Hsplit Hn1).
    split; [done|]. rewrite Hsplit. simpl. rewrite !length_app. simpl. lia.
  - exists (item_data t). rewrite appendWord_new by done. split; [done|]. simpl. lia.
Qed.

(** ** Appends that continue the latest set *)

(** X10: with stored counts that are safe integers, an accepted append to
    the record of today moves the word to the front of that record and
    keeps the order of the other words; the older records of the set and
    the ids of the catalog stay as they were, and the two counts go up by
    one exactly when the word is new to the record. *)
Theorem addRecord_same_day (e : Env) (area : string) (text : Word) (w : World)
    (c : RecordCat) (s : RecordSet) (first : RecordItem) (older : list RecordItem) :
  well_formed area (store w) = true →
  latest area (store w) = Some (c, s) →
  set_data s = first :: older →
  item_date first = getToday (date_today e) →
  safe (set_wordCount s) = true →
  safe (cat_wordCount c) = true →
  set_ok e = true →
  ∃ w',
    addRecord e area text w = (Resolved tt, w')
    ∧ store w' =
        <[set_id s :=
            VSet {| set_id := set_id s;
                    set_data :=
                      {| item_date := item_date first;
                         item_data :=
                           text :: filter (λ x, x ≠ text) (item_data first) |}
                      :: older;
                    set_wordCount :=
                      if decide (text ∈ item_data first) then set_wordCount s
                      else num_add (set_wordCount s) (Fin 1) |}]>
          (<[catName area :=
               VCat {| cat_data := cat_data c;
                       cat_wordCount :=
                         if decide (text ∈ item_data first) then cat_wordCount c
                         else num_add (cat_wordCount c) (Fin 1);
                       cat_timestamp := Some (now_stamp e) |}]> (store w)).
Proof.
  intros Hwf Hlat Hdata Hdate _ _ Hok.
  pose proof (well_formed_typed _ _ Hwf) as Hty.
  assert (Hfirst : set_data s !! 0 = Some first) by by rewrite Hdata.
  destruct (latest_lookup area (store w) c s Hlat) as (id & rest & Hc & Hids & Hs).
  assert (Hnd : NoDup (item_data first)).
  { destruct (well_formed_elem area (store w) c id Hwf) as [_ Hsw].
    - by apply stored_catalog_Some.
    - rewrite Hids. left.
    - destruct (set_well_formed_lookup _ _ _ Hsw Hs) as [_ Hall].
      rewrite Forall_forall in Hall. apply Hall. rewrite Hdata. left. }
  destruct (resolve_today e area w c s first Hty Hlat Hfirst Hdate)
    as (w1 & Hres & Hst & _).
  rewrite (addRecord_run e area text w w1 _ Hres Hst), Hok.
  rewrite appendWord_filter by done. cbn [fst snd set_id]. rewrite Hdata.
  by eexists.
Qed.

Lemma addRecord_same_day_witness :
  ∃ w',
    addRecord env_jan5 "a" "x" world_today = (Resolved tt, w')
    ∧ store w' =
        <["1515140000000" :=
            VSet (mkSet "1515140000000" [mkItem "01052018" ["x"; "y"]] (Fin 2))]>
          (<["aCat" := VCat (mkCat ["1515140000000"] (Fin 2) (Some 1515150000002%Z))]>
             (store world_today)).
Proof.
  apply (addRecord_same_day env_jan5 "a" "x" world_today
           (mkCat ["1515140000000"] (Fin 2) (Some 1515140000009%Z))
           (mkSet "1515140000000" [mkItem "01052018" ["y"; "x"]] (Fin 2))
           (mkItem "01052018" ["y"; "x"]) []); reflexivity.
Defined.

(** X11: with stored counts that are safe integers, the first accepted
    append of a day to a latest set with fewer than 500 words puts a record
    of that day, holding the word alone, in front of the records of the
    set, which stay as they were; both counts go up by one and the ids of
    the catalog stay as they were. *)
Theorem addRecord_new_day (e : Env) (area : string) (text : Word) (w : World)
    (c : RecordCat) (s : RecordSet) :
  typed area (store w) = true →
  latest area (store w) = Some (c, s) →
  (∀ first, set_data s !! 0 = Some first → item_date first ≠ getToday (date_today e)) →
  num_ge (set_wordCount s) (Fin 500) = false →
  safe (set_wordCount s) = true →
  safe (cat_wordCount c) = true →
  set_ok e = true →
  ∃ w',
    addRecord e area text w = (Resolved tt, w')
    ∧ store w' =
        <[set_id s :=
            VSet {| set_id := set_id s;
                    set_data :=
                      {| item_date := getToday (date_today e); item_data := [text] |}
                      :: set_data s;
                    set_wordCount := num_add (set_wordCount s) (Fin 1) |}]>
          (<[catName area :=
               VCat {| cat_data := cat_data c;
                       cat_wordCount := num_add (cat_wordCount c) (Fin 1);
                       cat_timestamp := Some (now_stamp e) |}]> (store w)).
Proof.
  intros Hty Hlat Hnot Hge _ _ Hok.
  destruct (resolve_new_day e area w c s Hty Hlat Hnot Hge) as (w1 & Hres & Hst & _).
  rewrite (addRecord_run e area text w w1 _ Hres Hst), Hok.
  rewrite appendWord_new by (simpl; apply not_elem_of_nil).
  by eexists.
Qed.

Lemma addRecord_new_day_witness :
  ∃ w',
    addRecord (mkEnv 1515240000000 (mkDate 0 6 2018) 1515240000001 1515240000002 true)
      "a" "z" world_today = (Resolved tt, w')
    ∧ store w' =
        <["1515140000000" :=
            VSet (mkSet "1515140000000"
                    [mkItem "01062018" ["z"]; mkItem "01052018" ["y"; "x"]] (Fin 3))]>
          (<["aCat" := VCat (mkCat ["1515140000000"] (Fin 3) (Some 1515240000002%Z))]>
             (store world_today)).
Proof.
  apply (addRecord_new_day
           (mkEnv 1515240000000 (mkDate 0 6 2018) 1515240000001 1515240000002 true)
           "a" "z" world_today
           (mkCat ["1515140000000"] (Fin 2) (Some 1515140000009%Z))
           (mkSet "1515140000000" [mkItem "01052018" ["y"; "x"]] (Fin 2)));
    try reflexivity.
  intros first [= <-]. discriminate.
Defined.

(** The id of the set that an append writes: an id made from the clock, or
    the id of the latest set. *)
Lemma resolve_set_id (e : Env) (area : string) (w w1 : World)
    (c : RecordCat) (s : RecordSet) (t : RecordItem) :
  typed area (store w) = true →
  resolve e area w = (Resolved (c, s, t), w1) →
  store w1 = store w
  ∧ (set_id s = toString (now_latest e)
     ∨ set_id s = toString (now_roll e)
     ∨ ∃ c0 s0, latest area (store w) = Some (c0, s0) ∧ set_id s = set_id s0).
Proof.
  intros Hty Hres.
  destruct (resolve_cases e area w Hty)
    as [[_ (ids & ts & w2 & Heq & Hst & _)]
       |(c0 & s0 & w2 & Hlat & Hst & Hcase)].
  { rewrite Heq in Hres. injection Hres as <- <- <- <-. split; [done|]. by left. }
  destruct Hcase as [(first & _ & _ & Heq & _)
                    |[_ [(_ & Heq & _)|[(_ & _ & Heq & _)|(_ & _ & Heq & _)]]]];
    rewrite Heq in Hres; injection Hres as <- <- <- <-; (split; [done|]).
  - right. right. by exists c0, s0.
  - right. right. by exists c0, s0.
  - right. by left.
  - right. by left.
Qed.

Lemma latest_well_formed (area : string) (st : gmap string value)
    (c : RecordCat) (s : RecordSet) :
  well_formed area st = true →
  latest area st = Some (c, s) →
  stored_catalog area st = Some c
  ∧ cat_data c !! 0 = Some (set_id s)
  ∧ st !! set_id s = Some (VSet s)
  ∧ set_id s ≠ catName area
  ∧ Forall (λ item, NoDup (item_data item)) (set_data s).
Proof.
  intros Hwf Hlat.
  destruct (latest_lookup area st c s Hlat) as (id & rest & Hc & Hids & Hs).
  apply stored_catalog_Some in Hc.
  destruct (well_formed_elem area st c id Hwf Hc) as [Hne Hsw]; [rewrite Hids; left|].
  destruct (set_well_formed_lookup _ _ _ Hsw Hs) as [<- Hall].
  by rewrite Hids.
Qed.

(** X12: when the stored count of the catalog is a safe integer, after an
    accepted append that continues the latest set or opens a set below the
    cap of 20, [getWordCount] answers the count of the catalog as it was,
    plus one exactly when the word is not in the record of today. *)
Theorem getWordCount_after_addRecord (e : Env) (area : string) (text : Word)
    (w : World) (c : RecordCat) (s : RecordSet) :
  well_formed area (store w) = true →
  latest area (store w) = Some (c, s) →
  safe (cat_wordCount c) = true →
  set_ok e = true →
  (∃ first, set_data s !! 0 = Some first ∧ item_date first = getToday (date_today e))
  ∨ num_ge (set_wordCount s) (Fin 500) = false
  ∨ length (cat_data c) < 20 →
  let known :=
    match set_data s !! 0 with
    | Some first =>
        if decide (item_date first = getToday (date_today e))
        then item_data first else []
    | None => []
    end in
  (getWordCount area (addRecord e area text w).2).1
  = Resolved (if decide (text ∈ known) then cat_wordCount c
              else num_add (cat_wordCount c) (Fin 1)).
Proof.
  intros Hwf Hlat _ Hok Hcase known.
  pose proof (well_formed_typed _ _ Hwf) as Hty.
  destruct (latest_well_formed area (store w) c s Hwf Hlat) as (_ & _ & _ & Hne & _).
  assert (Hgoal : ∀ w' c',
            store w' !! catName area = Some (VCat c') →
            cat_wordCount c'
            = (if decide (text ∈ known) then cat_wordCount c
               else num_add (cat_wordCount c) (Fin 1)) →
            (getWordCount area w').1
            = Resolved (if decide (text ∈ known) then cat_wordCount c
                        else num_add (cat_wordCount c) (Fin 1))).
  { intros w' c' Hc' <-. by rewrite (getWordCount_stored area w' c'). }
  assert (Hnew : (∀ first, set_data s !! 0 = Some first →
                    item_date first ≠ getToday (date_today e)) →
                 known = []).
  { intros Hnot. unfold known. destruct (set_data s !! 0) as [first|] eqn:Hf; [|done].
    destruct (decide _) as [Hd|_]; [|done]. by destruct (Hnot first eq_refl). }
  assert (Hhead : (∃ first, set_data s !! 0 = Some first
                            ∧ item_date first = getToday (date_today e))
                  ∨ (∀ first, set_data s !! 0 = Some first →
                       item_date first ≠ getToday (date_today e))).
  { destruct (set_data s !! 0) as [first|]; [|by right].
    destruct (decide (item_date first = getToday (date_today e)));
      [left; by exists first|right; by intros ? [= <-]]. }
  destruct Hhead as [(first & Hfirst & Hdate)|Hnot].
  - destruct (resolve_today e area w c s first Hty Hlat Hfirst Hdate)
      as (w1 & Hres & Hst & _).
    rewrite (addRecord_run e area text w w1 _ Hres Hst), Hok.
    destruct (appendWord_any (now_stamp e) c s first text) as (rest & -> & _).
    cbn [fst snd set_id store]. eapply Hgoal.
    + cbn [store]. by rewrite lookup_insert_ne, lookup_insert_eq.
    + unfold known. rewrite Hfirst.
      by destruct (decide (item_date first = getToday (date_today e))).
  - rewrite (Hnew Hnot) in *.
    destruct (num_ge (set_wordCount s) (Fin 500)) eqn:Hge.
    + destruct Hcase as [(first & Hfirst & Hdate)|[?|Hlen]];
        [by destruct (Hnot first Hfirst)|done|].
      destruct (resolve_rollover e area w c s Hty Hlat Hnot Hge Hlen)
        as (w1 & Hres & Hst & _).
      rewrite (addRecord_run e area text w w1 _ Hres Hst), Hok.
      rewrite appendWord_new by (simpl; apply not_elem_of_nil).
      cbn [fst snd set_id store]. eapply Hgoal.
      * cbn [store]. rewrite lookup_insert_ne, lookup_insert_eq; [done|].
        apply toString_not_catName.
      * simpl. by destruct (decide (text ∈ [])) as [?%elem_of_nil|].
    + destruct (resolve_new_day e area w c s Hty Hlat Hnot Hge)
        as (w1 & Hres & Hst & _).
      rewrite (addRecord_run e area text w w1 _ Hres Hst), Hok.
      rewrite appendWord_new by (simpl; apply not_elem_of_nil).
      cbn [fst snd set_id store]. eapply Hgoal.
      * cbn [store]. by rewrite lookup_insert_ne, lookup_insert_eq.
      * simpl. by destruct (decide (text ∈ [])) as [?%elem_of_nil|].
Qed.

Lemma getWordCount_after_addRecord_witness :
  (getWordCount "a" (addRecord env_jan5 "a" "z" world_today).2).1 = Resolved (Fin 3)
  ∧ (getWordCount "a" (addRecord env_jan5 "a" "x" world_today).2).1 = Resolved (Fin 2).
Proof.
  split.
  - apply (getWordCount_after_addRecord env_jan5 "a" "z" world_today
             (mkCat ["1515140000000"] (Fin 2) (Some 1515140000009%Z))
             (mkSet "1515140000000" [mkItem "01052018" ["y"; "x"]] (Fin 2)));
      try reflexivity.
    right. left. reflexivity.
  - apply (getWordCount_after_addRecord env_jan5 "a" "x" world_today
             (mkCat ["1515140000000"] (Fin 2) (Some 1515140000009%Z))
             (mkSet "1515140000000" [mkItem "01052018" ["y"; "x"]] (Fin 2)));
      try reflexivity.
    right. left. reflexivity.
Defined.

(** ** What an append leaves alone *)

(** X13: on a well-formed store an append writes at most two keys, the
    catalog key and one set key, which is the first id of the catalog or an
    id made from the clock during the append; every other key keeps its
    value. *)
Theorem addRecord_frame (e : Env) (area : string) (text : Word) (w : World) :
  well_formed area (store w) = true →
  ∃ id,
    (id = toString (now_latest e)
     ∨ id = toString (now_roll e)
     ∨ ∃ c, stored_catalog area (store w) = Some c ∧ cat_data c !! 0 = Some id)
    ∧ ∀ k, k ≠ catName area → k ≠ id →
        store (addRecord e area text w).2 !! k = store w !! k.
Proof.
  intros Hwf. pose proof (well_formed_typed _ _ Hwf) as Hty.
  destruct (resolve_typed e area w Hty) as (c & s & t & w1 & Hres & _).
  destruct (resolve_set_id e area w w1 c s t Hty Hres) as [Hst Hid].
  exists (set_id s). split.
  - destruct Hid as [?|[?|(c0 & s0 & Hlat & ->)]]; [by left|by right; left|].
    right. right. exists c0.
    by destruct (latest_well_formed area (store w) c0 s0 Hwf Hlat) as (? & ? & _).
  - intros k Hk1 Hk2. rewrite (addRecord_run e area text w w1 _ Hres Hst).
    cbn [snd store]. destruct (set_ok e); [|done].
    rewrite appendWord_set_id. cbn [fst snd].
    by rewrite !lookup_insert_ne.
Qed.

Lemma addRecord_frame_witness :
  ∃ id,
    (id = toString (now_latest env_jan5)
     ∨ id = toString (now_roll env_jan5)
     ∨ ∃ c, stored_catalog "a" (store world_today) = Some c ∧ cat_data c !! 0 = Some id)
    ∧ ∀ k, k ≠ catName "a" → k ≠ id →
        store (addRecord env_jan5 "a" "x" world_today).2 !! k = store world_today !! k.
Proof. apply (addRecord_frame env_jan5 "a" "x" world_today). reflexivity. Defined.

Lemma getWordCount_outcome (area : string) (w : World) :
  (getWordCount area w).1
  = match store w !! catName area with
    | None => Resolved (Fin 0)
    | Some (VCat c) => Resolved (cat_wordCount c)
    | Some (VSet _) => IllTyped
    end.
Proof.
  unfold getWordCount, mbind, M_bind, storage_get. rewrite response_one.
  by destruct (store w !! catName area) as [[c|s]|].
Qed.

(** X14: an append to one namespace leaves the catalog of every other
    namespace whose catalog key holds a catalog or nothing, and so the
    answer of [getWordCount] for it, as it was. *)
Theorem addRecord_other_area (e : Env) (area other : string) (text : Word)
    (w : World) :
  well_formed area (store w) = true →
  typed other (store w) = true →
  other ≠ area →
  stored_catalog other (store (addRecord e area text w).2)
  = stored_catalog other (store w)
  ∧ (getWordCount other (addRecord e area text w).2).1 = (getWordCount other w).1.
Proof.
  intros Hwf Htyo Hother. pose proof (well_formed_typed _ _ Hwf) as Hty.
  destruct (resolve_typed e area w Hty) as (c & s & t & w1 & Hres & _).
  destruct (resolve_set_id e area w w1 c s t Hty Hres) as [Hst Hid].
  rewrite (addRecord_run e area text w w1 _ Hres Hst). cbn [snd store].
  destruct (set_ok e).
  2: { split; [done|]. by rewrite !getWordCount_outcome. }
  rewrite appendWord_set_id. cbn [fst snd].
  assert (Hcat : catName other ≠ catName area) by (intros ?%catName_inj; done).
  assert (Hkey : set_id s ≠ catName other).
  { destruct Hid as [Hs|[Hs|(c0 & s0 & Hlat & Hs)]].
    - rewrite Hs. apply toString_not_catName.
    - rewrite Hs. apply toString_not_catName.
    - intros Heq.
      destruct (latest_well_formed area (store w) c0 s0 Hwf Hlat)
        as (_ & _ & Hs0 & _).
      rewrite <- Hs, Heq in Hs0. unfold typed in Htyo. by rewrite Hs0 in Htyo. }
  rewrite !getWordCount_outcome. unfold stored_catalog. cbn [store].
  by rewrite !lookup_insert_ne.
Qed.

Lemma addRecord_other_area_witness :
  stored_catalog "b" (store (addRecord env_jan5 "a" "x" world_today).2)
  = stored_catalog "b" (store world_today)
  ∧ (getWordCount "b" (addRecord env_jan5 "a" "x" world_today).2).1
    = (getWordCount "b" world_today).1.
Proof.
  apply (addRecord_other_area env_jan5 "a" "b" "x" world_today);
    [reflexivity|reflexivity|discriminate].
Defined.

(** X15: an append never takes a key out of the store, and the only
    [remove] call it may issue is the [remove(undefined)] of the eviction. *)
Theorem addRecord_never_removes (e : Env) (area : string) (text : Word) (w : World) :
  typed area (store w) = true →
  (∀ k, is_Some (store w !! k) → is_Some (store (addRecord e area text w).2 !! k))
  ∧ (removes (calls (addRecord e area text w).2) = removes (calls w)
     ∨ removes (calls (addRecord e area text w).2) = removes (calls w) ++ [None]).
Proof.
  intros Hty. split; [intros k; by apply addRecord_removes_nothing|].
  assert (Hlog : ∀ r w1, resolve e area w = (Resolved r, w1) → store w1 = store w →
            removes (calls (addRecord e area text w).2) = removes (calls w1)).
  { intros r w1 Hres Hst. rewrite (addRecord_run e area text w w1 r Hres Hst).
    cbn [snd calls]. by rewrite removes_log, app_nil_r. }
  destruct (resolve_cases e area w Hty)
    as [[_ (ids & ts & w1 & Heq & Hst & Hrm & _)]
       |(c0 & s0 & w1 & _ & Hst & Hcase)].
  { left. by rewrite (Hlog _ _ Heq Hst). }
  destruct Hcase as [(first & _ & _ & Heq & Hrm)
                    |[_ [(_ & Heq & Hrm)|[(_ & _ & Heq & Hrm)|(_ & _ & Heq & Hrm)]]]];
    rewrite (Hlog _ _ Heq Hst), Hrm; auto.
Qed.

Lemma addRecord_never_removes_witness :
  (∀ k, is_Some (store world20 !! k) →
        is_Some (store (addRecord env_jan21 "a" "x" world20).2 !! k))
  ∧ (removes (calls (addRecord env_jan21 "a" "x" world20).2) = removes (calls world20)
     ∨ removes (calls (addRecord env_jan21 "a" "x" world20).2)
       = removes (calls world20) ++ [None]).
Proof. apply (addRecord_never_removes env_jan21 "a" "x" world20). reflexivity. Defined.

(** ** Listeners *)

(** X16: on a store whose catalog lists plain ids, a listener registered
    with [listenRecord] is notified by every accepted append whose time
    stamp differs from the one the catalog carries, whether or not the
    append changes a count or an id. *)
Theorem addRecord_notifies (e : Env) (area f : string) (text : Word) (w : World)
    (ls : list (string * string)) :
  typed area (store w) = true →
  plain_ids area (store w) = true →
  set_ok e = true →
  (∀ c, stored_catalog area (store w) = Some c → cat_timestamp c ≠ Some (now_stamp e)) →
  notified (listenRecord area (Function f) ls) (store w)
    (store (addRecord e area text w).2)
  = notified ls (store w) (store (addRecord e area text w).2) ++ [f].
Proof.
  intros Hty _ Hok Hts.
  destruct (resolve_typed e area w Hty) as (c & s & t & w1 & Hres & Hst & _).
  rewrite (addRecord_run e area text w w1 _ Hres Hst), Hok. cbn [snd store].
  unfold notified, listenRecord, storage_listen.
  rewrite filter_app, fmap_app. f_equal.
  rewrite filter_cons_True; [done|]. cbn [fst]. fold (catName area).
  destruct (appendWord_any (now_stamp e) c s t text) as (rest & -> & _).
  cbn [fst snd set_id].
  destruct (decide (set_id s = catName area)) as [->|Hne].
  - rewrite lookup_insert_eq. intros Hsame. unfold typed in Hty.
    rewrite Hsame in Hty. done.
  - rewrite lookup_insert_ne, lookup_insert_eq by done. intros Hsame.
    apply (Hts (mkCat (cat_data c)
                  (if decide (text ∈ item_data t) then cat_wordCount c
                   else num_add (cat_wordCount c) (Fin 1)) (Some (now_stamp e)))).
    + by apply stored_catalog_Some.
    + done.
Qed.

Lemma addRecord_notifies_witness :
  notified (listenRecord "a" (Function "f") []) (store world_today)
    (store (addRecord env_jan5 "a" "x" world_today).2)
  = notified [] (store world_today) (store (addRecord env_jan5 "a" "x" world_today).2)
    ++ ["f"].
Proof.
  apply (addRecord_notifies env_jan5 "a" "f" "x" world_today []); try reflexivity.
  intros c [= <-]. discriminate.
Defined.

(** X17: [clearRecords] notifies no listener registered with
    [listenRecord] for the namespace: it removes the sets and leaves the
    catalog, time stamp included, as it was. *)
Theorem clearRecords_notifies_nobody (area : string) (cb : callback) (w : World) :
  typed area (store w) = true →
  notified (listenRecord area cb []) (store w) (store (clearRecords area w).2) = [].
Proof.
  intros Hty. destruct cb as [f|]; [|done].
  unfold notified, listenRecord, storage_listen. simpl.
  rewrite filter_cons_False, filter_nil; [done|]. cbn [fst]. fold (catName area).
  intros Hdiff. apply Hdiff.
  destruct (clearRecords_store area w Hty) as (_ & Hcat & Hty').
  destruct (stored_catalog area (store w)) as [c|] eqn:Hc.
  - apply stored_catalog_Some in Hc, Hcat. by rewrite Hc, Hcat.
  - by rewrite (stored_catalog_None _ _ Hty Hc), (stored_catalog_None _ _ Hty' Hcat).
Qed.

Lemma clearRecords_notifies_nobody_witness :
  notified (listenRecord "a" (Function "f") []) (store world20)
    (store (clearRecords "a" world20).2) = [].
Proof. apply (clearRecords_notifies_nobody "a" (Function "f") world20). reflexivity. Defined.

(** ** Invariants of the reachable stores *)

Lemma pretty_N_go_length (x : N) (s : string) :
  String.length s ≤ String.length (pretty_N_go x s).
Proof.
  revert s. induction (N.lt_wf_0 x) as [x _ IH]. intros s.
  assert (x = 0 ∨ 0 < x)%N as [->|Hx] by lia; [by rewrite pretty_N_go_0|].
  rewrite pretty_N_go_step by done.
  etrans; [|apply IH; by apply N.div_lt]. simpl. lia.
Qed.

(** The decimal rendering of a number is not the empty string. *)
Lemma toString_nonempty (n : Z) : toString n ≠ "".
Proof.
  assert (Hpos : ∀ p, pretty (N.pos p) ≠ "").
  { intros p Hp. unfold pretty, pretty_N in Hp.
    destruct (decide (N.pos p = 0%N)) as [|_]; [done|].
    rewrite pretty_N_go_step in Hp by lia.
    pose proof (pretty_N_go_length (N.pos p / 10)
                  (String (pretty_N_char (N.pos p `mod` 10)) "")) as Hlen.
    rewrite Hp in Hlen. simpl in Hlen. lia. }
  destruct n as [|p|p]; [done|apply Hpos|done].
Qed.

Lemma words_in_cons (id : string) (t : RecordItem) (older : list RecordItem) (n : num) :
  words_in {| set_id := id; set_data := t :: older; set_wordCount := n |}
  = length (item_data t)
    + words_in {| set_id := id; set_data := older; set_wordCount := n |}.
Proof. done. Qed.

(** What the stages before [appendAndSave] hand over, on a sound and
    well-formed store. *)
Lemma resolve_sound (e : Env) (area : string) (w w1 : World)
    (c : RecordCat) (s : RecordSet) (t : RecordItem) :
  well_formed area (store w) = true →
  sound area (store w) →
  resolve e area w = (Resolved (c, s, t), w1) →
  (∃ older, set_data s = t :: older
            ∧ Forall (λ item, item_data item ≠ []) older
            ∧ set_wordCount s
              = Fin (Z.of_nat (length (item_data t)
                               + sum_list (length ∘ item_data <$> older))))
  ∧ (∀ k, k ∈ cat_data c →
       k ≠ ""
       ∧ (k = set_id s
          ∨ (k ≠ set_id s ∧ k ≠ catName area ∧ is_Some (store w !! k)
             ∧ ∀ x, store w !! k = Some (VSet x) → sound_set x))).
Proof.
  intros Hwf Hsound Hres. pose proof (well_formed_typed _ _ Hwf) as Hty.
  assert (Hlisted : ∀ c0 k,
            stored_catalog area (store w) = Some c0 → k ∈ cat_data c0 →
            k ≠ "" ∧ k ≠ catName area
            ∧ ∀ x, store w !! k = Some (VSet x) → sound_set x).
  { intros c0 k Hc0 Hk. destruct (Hsound c0 Hc0) as (_ & Hall & _).
    destruct (Hall k Hk) as [? ?].
    by destruct (well_formed_elem area (store w) c0 k Hwf Hc0 Hk). }
  assert (Hlive : ∀ c0 s0 k,
            latest area (store w) = Some (c0, s0) → k ∈ cat_data c0 →
            stored_catalog area (store w) = Some c0 ∧ is_Some (store w !! k)).
  { intros c0 s0 k Hlat Hk.
    destruct (latest_well_formed area (store w) c0 s0 Hwf Hlat)
      as (Hc0 & Hhead & Hs0 & _).
    split; [done|]. destruct (Hsound c0 Hc0) as (_ & _ & [Hall|Hnone]).
    - rewrite Forall_forall in Hall. by apply Hall.
    - rewrite Forall_forall in Hnone.
      rewrite (Hnone (set_id s0)) in Hs0; [done|]. by apply list_elem_of_lookup_2 with 0. }
  assert (Hs0 : ∀ c0 s0, latest area (store w) = Some (c0, s0) → sound_set s0).
  { intros c0 s0 Hlat.
    destruct (latest_well_formed area (store w) c0 s0 Hwf Hlat)
      as (Hc0 & Hhead & Hst0 & _).
    destruct (Hlisted c0 (set_id s0) Hc0) as (_ & _ & Hx);
      [by apply list_elem_of_lookup_2 with 0|]. by apply Hx. }
  assert (Hkeep : ∀ c0 s0 k,
            latest area (store w) = Some (c0, s0) → k ∈ cat_data c0 →
            k ≠ ""
            ∧ (k = set_id s0
               ∨ (k ≠ set_id s0 ∧ k ≠ catName area ∧ is_Some (store w !! k)
                  ∧ ∀ x, store w !! k = Some (VSet x) → sound_set x))).
  { intros c0 s0 k Hlat Hk. destruct (Hlive c0 s0 k Hlat Hk) as [Hc0 Hst].
    destruct (Hlisted c0 k Hc0 Hk) as (? & ? & ?). split; [done|].
    destruct (decide (k = set_id s0)); [by left|by right]. }
  assert (Hopen : ∀ c0 s0 k now,
            latest area (store w) = Some (c0, s0) → k ∈ cat_data c0 →
            k ≠ ""
            ∧ (k = toString now
               ∨ (k ≠ toString now ∧ k ≠ catName area ∧ is_Some (store w !! k)
                  ∧ ∀ x, store w !! k = Some (VSet x) → sound_set x))).
  { intros c0 s0 k now Hlat Hk. destruct (Hlive c0 s0 k Hlat Hk) as [Hc0 Hst].
    destruct (Hlisted c0 k Hc0 Hk) as (? & ? & ?). split; [done|].
    destruct (decide (k = toString now)); [by left|by right]. }
  destruct (resolve_cases e area w Hty)
    as [[_ (ids & ts & w2 & Heq & _ & _ & Hids)]
       |(c0 & s0 & w2 & Hlat & _ & Hcase)].
  { rewrite Heq in Hres. injection Hres as <- <- <- <-. split.
    - exists []. by repeat split.
    - cbn [cat_data set_id]. intros k [->|Hk]%elem_of_cons.
      + split; [apply toString_nonempty|by left].
      + destruct (Hids k Hk) as (Hst & c0 & Hc0 & Hk0).
        destruct (Hlisted c0 k Hc0 Hk0) as (? & ? & ?). split; [done|].
        destruct (decide (k = toString (now_latest e))); [by left|by right]. }
  destruct (Hs0 c0 s0 Hlat) as (Hcount & Hne & Hrecords).
  destruct Hcase as [(first & Hfirst & _ & Heq & _)
                    |[_ [(_ & Heq & _)|[(_ & _ & Heq & _)|(_ & _ & Heq & _)]]]];
    rewrite Heq in Hres; injection Hres as <- <- <- <-.
  - split; [|intros k Hk; by apply (Hkeep c0 s0)].
    destruct (set_data s0) as [|first' older] eqn:Hdata; [done|].
    injection Hfirst as ->. exists older. split; [done|].
    apply Forall_cons in Hrecords as [_ Holder]. split; [done|].
    rewrite Hcount. unfold words_in. by rewrite Hdata.
  - split; [|intros k Hk; by apply (Hkeep c0 s0)].
    exists (set_data s0). do 2 (split; [done|]). cbn [set_wordCount item_data length].
    by rewrite Hcount.
  - split; [exists []; by repeat split|].
    cbn [cat_data set_id]. intros k [->|Hk]%elem_of_cons.
    + split; [apply toString_nonempty|by left].
    + by apply (Hopen c0 s0).
  - split; [exists []; by repeat split|].
    cbn [cat_data set_id]. intros k [->|Hk]%elem_of_cons.
    + split; [apply toString_nonempty|by left].
    + apply (Hopen c0 s0); [done|]. by apply elem_of_removelast.
Qed.

(** Soundness is kept by every [addRecord], after which, when the write was
    accepted, every listed id is stored. *)
Lemma addRecord_sound (e : Env) (area : string) (text : Word) (w : World) :
  well_formed area (store w) = true →
  sound area (store w) →
  sound area (store (addRecord e area text w).2)
  ∧ (set_ok e = true →
     ∃ c, stored_catalog area (store (addRecord e area text w).2) = Some c
          ∧ Forall (λ k, is_Some (store (addRecord e area text w).2 !! k)) (cat_data c)).
Proof.
  intros Hwf Hsound. pose proof (well_formed_typed _ _ Hwf) as Hty.
  destruct (resolve_typed e area w Hty) as (c & s & t & w1 & Hres & Hst & _).
  destruct (resolve_ok e area w w1 c s t Hwf Hres) as [(Hhead & Hne & _ & _) _].
  destruct (resolve_sound e area w w1 c s t Hwf Hsound Hres)
    as [(older & Hdata & Holder & Hcount) Hlisted].
  rewrite (addRecord_run e area text w w1 _ Hres Hst). cbn [snd store].
  destruct (set_ok e); [|split; [done|by intros ?]].
  destruct (appendWord_any (now_stamp e) c s t text) as (rest & -> & Hlen).
  cbn [fst snd set_id]. rewrite Hdata. cbn [insert list_insert].
  set (s' := {| set_id := set_id s;
                set_data := {| item_date := item_date t; item_data := text :: rest |}
                            :: older;
                set_wordCount := _ |}).
  set (c' := {| cat_data := cat_data c; cat_wordCount := _; cat_timestamp := _ |}).
  set (st' := <[set_id s := VSet s']> (<[catName area := VCat c']> (store w))).
  assert (Hc' : stored_catalog area st' = Some c').
  { apply stored_catalog_Some. unfold st'.
    by rewrite lookup_insert_ne, lookup_insert_eq. }
  assert (Hs' : sound_set s').
  { split; [|split; [done|]].
    - unfold s'. rewrite words_in_cons. unfold words_in. cbn [set_data set_wordCount item_data].
      rewrite Hlen. destruct (decide (text ∈ item_data t)).
      + rewrite Hcount. f_equal. lia.
      + rewrite Hcount. simpl. f_equal. lia.
    - apply Forall_cons. split; [done|done]. }
  assert (Hall : ∀ k, k ∈ cat_data c →
            k ≠ "" ∧ is_Some (st' !! k) ∧ ∀ x, st' !! k = Some (VSet x) → sound_set x).
  { intros k Hk. destruct (Hlisted k Hk) as [Hk0 [->|(Hk1 & Hk2 & Hk3 & Hk4)]].
    - split; [done|]. unfold st'. rewrite lookup_insert_eq. split; [done|].
      by intros x [= <-].
    - split; [done|]. unfold st'. by rewrite !lookup_insert_ne. }
  assert (Hsound' : sound area st').
  { intros c'' Hc''. rewrite Hc' in Hc''. injection Hc'' as <-. cbn [cat_data].
    split; [|split].
    - intros Hnil. change (cat_data c = []) in Hnil. by rewrite Hnil in Hhead.
    - intros k Hk. destruct (Hall k Hk) as (? & _ & ?). done.
    - left. apply Forall_forall. intros k Hk. by destruct (Hall k Hk) as (_ & ? & _). }
  split; [done|]. intros _. exists c'. split; [done|].
  apply Forall_forall. intros k Hk. by destruct (Hall k Hk) as (_ & ? & _).
Qed.

(** Soundness is kept by [clearRecords], after which no listed id is
    stored. *)
Lemma clearRecords_sound (area : string) (w : World) :
  typed area (store w) = true →
  sound area (store w) →
  sound area (store (clearRecords area w).2).
Proof.
  intros Hty Hsound c Hc.
  destruct (clearRecords_store area w Hty) as (Hst & Hcat & _).
  rewrite Hcat in Hc. rewrite Hst, Hc. destruct (Hsound c Hc) as (Hne & Hall & _).
  split; [done|]. split.
  - intros k Hk. destruct (Hall k Hk) as [Hk0 _]. split; [done|].
    intros s. by rewrite lookup_foldr_delete.
  - right. apply Forall_forall. intros k Hk. by apply lookup_foldr_delete.
Qed.

Lemma reachable_sound (area : string) (w : World) :
  reachable area w → sound area (store w).
Proof.
  induction 1 as [|e text w Hw IH|w Hw IH].
  - intros c Hc. unfold stored_catalog in Hc. simpl in Hc.
    by rewrite lookup_empty in Hc.
  - destruct (reachable_invariants area w Hw) as [Hwf _].
    by destruct (addRecord_sound e area text w Hwf IH).
  - destruct (reachable_invariants area w Hw) as [Hwf _].
    apply clearRecords_sound; [by apply well_formed_typed|done].
Qed.



(** X18: in every state reached from the empty store by appends and
    clears, a stored catalog lists between 1 and 20 ids, none of them the
    empty string or the catalog key, and the listed ids are stored either
    all or none. *)
Theorem reachable_catalog (area : string) (w : World) (c : RecordCat) :
  reachable area w →
  stored_catalog area (store w) = Some c →
  1 ≤ length (cat_data c) ≤ 20
  ∧ Forall (λ k, k ≠ "" ∧ k ≠ catName area) (cat_data c)
  ∧ (Forall (λ k, is_Some (store w !! k)) (cat_data c)
     ∨ Forall (λ k, store w !! k = None) (cat_data c)).
Proof.
  intros Hw Hc. destruct (reachable_invariants area w Hw) as [Hwf Hcap].
  destruct (reachable_sound area w Hw c Hc) as (Hne & Hall & Hlive).
  unfold capped in Hcap. rewrite Hc in Hcap. apply bool_decide_eq_true in Hcap.
  split; [|split; [|done]].
  - destruct (cat_data c); [done|]. simpl in *. lia.
  - apply Forall_forall. intros k Hk. split; [by apply Hall|].
    by destruct (well_formed_elem area (store w) c k Hwf Hc Hk).
Qed.

Lemma reachable_catalog_witness :
  let w := (clearRecords "a" (addRecord env_jan5 "a" "x" (mkWorld ∅ [])).2).2 in
  let c := mkCat ["1515150000000"] (Fin 1) (Some 1515150000002%Z) in
  1 ≤ length (cat_data c) ≤ 20
  ∧ Forall (λ k, k ≠ "" ∧ k ≠ catName "a") (cat_data c)
  ∧ (Forall (λ k, is_Some (store w !! k)) (cat_data c)
     ∨ Forall (λ k, store w !! k = None) (cat_data c)).
Proof.
  intros w c. apply (reachable_catalog "a" w c).
  - apply reach_clearRecords, reach_addRecord, reach_empty.
  - reflexivity.
Defined.

(** X19: in every reachable state, what is stored under an id of the
    catalog is a record set that carries that id, holds at least one
    record, has no empty record and no record with a repeated word, and
    whose count is the number of words in its records. *)
Theorem reachable_sets (area : string) (w : World) (c : RecordCat) (k : string)
    (v : value) :
  reachable area w →
  stored_catalog area (store w) = Some c →
  k ∈ cat_data c →
  store w !! k = Some v →
  ∃ s, v = VSet s
       ∧ set_id s = k
       ∧ set_wordCount s = Fin (Z.of_nat (words_in s))
       ∧ set_data s ≠ []
       ∧ Forall (λ item, item_data item ≠ [] ∧ NoDup (item_data item)) (set_data s).
Proof.
  intros Hw Hc Hk Hv. destruct (reachable_invariants area w Hw) as [Hwf _].
  destruct (reachable_sound area w Hw c Hc) as (_ & Hall & _).
  destruct (well_formed_elem area (store w) c k Hwf Hc Hk) as [_ Hswf].
  destruct v as [c'|s].
  { unfold set_well_formed in Hswf. by rewrite Hv in Hswf. }
  exists s. split; [done|].
  destruct (set_well_formed_lookup _ _ _ Hswf Hv) as [Hid Hnd].
  destruct (Hall k Hk) as [_ Hs]. destruct (Hs s Hv) as (Hcount & Hne & Hrec).
  do 3 (split; [done|]). apply Forall_forall. intros item Hitem.
  rewrite Forall_forall in Hnd, Hrec. split; [by apply Hrec|by apply Hnd].
Qed.

Lemma reachable_sets_witness :
  let w := (addRecord env_jan5_later "a" "y"
              (addRecord env_jan5 "a" "x" (mkWorld ∅ [])).2).2 in
  ∃ s, VSet (mkSet "1515150000000" [mkItem "01052018" ["y"; "x"]] (Fin 2)) = VSet s
       ∧ set_id s = "1515150000000"
       ∧ set_wordCount s = Fin (Z.of_nat (words_in s))
       ∧ set_data s ≠ []
       ∧ Forall (λ item, item_data item ≠ [] ∧ NoDup (item_data item)) (set_data s).
Proof.
  intros w.
  apply (reachable_sets "a" w (mkCat ["1515150000000"] (Fin 2) (Some 1515160000002%Z))
           "1515150000000").
  - apply reach_addRecord, reach_addRecord, reach_empty.
  - reflexivity.
  - left.
  - reflexivity.
Defined.

(** X20: in every reachable state, [getRecordSet] answers every position
    of the catalog's id list with a page: what is stored under the id of
    that position, and the length of the list. *)
Theorem reachable_pages (area : string) (w : World) (c : RecordCat) (i : nat)
    (id : string) :
  reachable area w →
  stored_catalog area (store w) = Some c →
  cat_data c !! i = Some id →
  ∃ w',
    getRecordSet area (Fin (Z.of_nat i)) w
    = (Resolved (Page (store w !! id) (length (cat_data c))), w')
    ∧ store w' = store w.
Proof.
  intros Hw Hc Hid. destruct (reachable_sound area w Hw c Hc) as (_ & Hall & _).
  destruct (Hall id) as [Hne _]; [by apply list_elem_of_lookup_2 with i|].
  rewrite (getRecordSet_page area i id c w Hc Hid Hne). by eexists.
Qed.

Lemma reachable_pages_witness :
  let w := (addRecord env_jan5 "a" "x" (mkWorld ∅ [])).2 in
  ∃ w',
    getRecordSet "a" (Fin (Z.of_nat 0)) w
    = (Resolved (Page (store w !! "1515150000000") 1), w')
    ∧ store w' = store w.
Proof.
  intros w.
  apply (reachable_pages "a" w (mkCat ["1515150000000"] (Fin 1) (Some 1515150000002%Z))
           0 "1515150000000").
  - apply reach_addRecord, reach_empty.
  - reflexivity.
  - reflexivity.
Defined.

(** X21: in every reachable state, [getAllWords] is rejected exactly when
    the namespace has a catalog whose first id is not stored, which is the
    state [clearRecords] leaves until the next accepted append; otherwise
    it resolves with the empty sequence. *)
Theorem reachable_getAllWords (area : string) (w : World) :
  reachable area w →
  (getAllWords area w).1
  = match stored_catalog area (store w), latest area (store w) with
    | Some _, None => Rejected TypeError
    | _, _ => Resolved []
    end.
Proof.
  intros Hw. destruct (reachable_invariants area w Hw) as [Hwf _].
  pose proof (well_formed_typed _ _ Hwf) as Hty.
  destruct (stored_catalog area (store w)) as [c|] eqn:Hc.
  2: { unfold getAllWords, mbind, M_bind, storage_get.
       by rewrite (catalog_absent area w (stored_catalog_None _ _ Hty Hc)). }
  destruct (reachable_sound area w Hw c Hc) as (Hne & _ & Hlive).
  unfold getAllWords, mbind, M_bind, storage_get.
  rewrite (catalog_present area w c Hc).
  match goal with
  | |- context [collect_sets ?a ?b ?r ?w0] =>
      destruct (collect_sets_typed a (store w) b r w0) as [H1 H2]
  end.
  { intros k Hk. split; [by apply response_lookup|].
    apply (refers_to_sets_elem _ c); [|done]. by apply typed_stored_catalog with area. }
  destruct (cat_data c) as [|id rest] eqn:Hdata; [done|].
  destruct Hlive as [Hall|Hnone].
  - rewrite (H1 Hall). apply Forall_cons in Hall as [[v Hv] _].
    destruct (well_formed_elem area (store w) c id Hwf Hc) as [_ Hswf];
      [rewrite Hdata; left|].
    destruct v as [c'|s]; [unfold set_well_formed in Hswf; by rewrite Hv in Hswf|].
    by rewrite (latest_Some_stored area (store w) c id rest s Hc Hdata Hv).
  - rewrite H2 by (apply Exists_cons; left; by apply Forall_cons in Hnone as [? _]).
    apply Forall_cons in Hnone as [Hid _].
    by rewrite (latest_None_dangling area (store w) c id rest Hc Hdata Hid).
Qed.

Lemma reachable_getAllWords_witness :
  let w := (clearRecords "a" (addRecord env_jan5 "a" "x" (mkWorld ∅ [])).2).2 in
  (getAllWords "a" w).1
  = match stored_catalog "a" (store w), latest "a" (store w) with
    | Some _, None => Rejected TypeError
    | _, _ => Resolved []
    end.
Proof.
  intros w. apply (reachable_getAllWords "a" w).
  apply reach_clearRecords, reach_addRecord, reach_empty.
Defined.

(** ** One key space for all namespaces *)

(** X22: set ids come from the clock alone and all namespaces share one
    key space: when two namespaces without a catalog make their first set
    at the same clock value, both catalogs list the same key, and the
    second append replaces the set of the first namespace, whose word is
    gone. *)
Theorem areas_share_set_keys (e1 e2 : Env) (a b : string) (x y : Word) (w : World) :
  a ≠ b →
  store w !! catName a = None →
  store w !! catName b = None →
  set_ok e1 = true →
  set_ok e2 = true →
  now_latest e2 = now_latest e1 →
  let w1 := (addRecord e1 a x w).2 in
  let w2 := (addRecord e2 b y w1).2 in
  let s (e : Env) (text : Word) :=
    {| set_id := toString (now_latest e1);
       set_data := [{| item_date := getToday (date_today e); item_data := [text] |}];
       set_wordCount := Fin 1 |} in
  let c (e : Env) :=
    {| cat_data := [toString (now_latest e1)];
       cat_wordCount := Fin 1;
       cat_timestamp := Some (now_stamp e) |} in
  latest a (store w1) = Some (c e1, s e1 x)
  ∧ latest a (store w2) = Some (c e1, s e2 y)
  ∧ latest b (store w2) = Some (c e2, s e2 y).
Proof.
  intros Hab Ha Hb Hok1 Hok2 Hnow w1 w2 s c.
  assert (Hcat : catName b ≠ catName a) by (intros ?%catName_inj; done).
  assert (Hid : ∀ area, toString (now_latest e1) ≠ catName area)
    by (intros area; apply toString_not_catName).
  destruct (addRecord_starts_over e1 a x w) as [_ Hst1]; [| |done|].
  { unfold typed. by rewrite Ha. }
  { intros c0 Hc0. unfold stored_catalog in Hc0. by rewrite Ha in Hc0. }
  fold w1 in Hst1.
  assert (Hb1 : store w1 !! catName b = None).
  { rewrite Hst1. by rewrite !lookup_insert_ne. }
  destruct (addRecord_starts_over e2 b y w1) as [_ Hst2]; [| |done|].
  { unfold typed. by rewrite Hb1. }
  { intros c0 Hc0. unfold stored_catalog in Hc0. by rewrite Hb1 in Hc0. }
  fold w2 in Hst2. rewrite Hnow in Hst2.
  split; [|split].
  - rewrite Hst1. by apply (latest_after_append a (store w) (c e1) (s e1 x)).
  - unfold latest. rewrite Hst2.
    rewrite lookup_insert_ne, lookup_insert_ne by done.
    rewrite Hst1. rewrite lookup_insert_ne, lookup_insert_eq by done.
    cbn [c cat_data lookup list_lookup]. by rewrite lookup_insert_eq.
  - rewrite Hst2. by apply (latest_after_append b (store w1) (c e2) (s e2 y)).
Qed.

Lemma areas_share_set_keys_witness :
  let e1 := env_jan5 in
  let e2 := mkEnv 1515150000000 jan5 1515150000001 1515150000003 true in
  let w1 := (addRecord e1 "a" "x" (mkWorld ∅ [])).2 in
  let w2 := (addRecord e2 "b" "y" w1).2 in
  let s (text : Word) := mkSet "1515150000000" [mkItem "01052018" [text]] (Fin 1) in
  latest "a" (store w1)
  = Some (mkCat ["1515150000000"] (Fin 1) (Some 1515150000002%Z), s "x")
  ∧ latest "a" (store w2)
    = Some (mkCat ["1515150000000"] (Fin 1) (Some 1515150000002%Z), s "y")
  ∧ latest "b" (store w2)
    = Some (mkCat ["1515150000000"] (Fin 1) (Some 1515150000003%Z), s "y").
Proof.
  intros e1 e2 w1 w2 s.
  apply (areas_share_set_keys e1 e2 "a" "b" "x" "y" (mkWorld ∅ []));
    (reflexivity || discriminate).
Defined.

(** ** The ids of the reachable stores are plain *)

Lemma numeral_chars_pretty_N_go (x : N) (s : string) :
  numeral_chars (pretty_N_go x s) = numeral_chars s.
Proof.
  revert s. induction (N.lt_wf_0 x) as [x _ IH]; intros s.
  destruct (decide (x = 0)%N) as [->|Hx].
  - by rewrite pretty_N_go_0.
  - rewrite pretty_N_go_step by lia. rewrite IH.
    + simpl. unfold pretty_N_char. by repeat case_match.
    + apply N.div_lt; lia.
Qed.

Lemma numeral_chars_toString (n : Z) : numeral_chars (toString n) = true.
Proof.
  assert (HN : ∀ x : N, numeral_chars (pretty x) = true).
  { intros x. unfold pretty, pretty_N. case_decide; [done|].
    by rewrite numeral_chars_pretty_N_go. }
  unfold toString, pretty, pretty_Z. destruct n as [|p|p]; [done|apply HN|].
  simpl. apply HN.
Qed.

(** An id made by [Date.now().toString()] names no inherited member. *)
Lemma toString_plain (n : Z) : plain (toString n) = true.
Proof.
  apply bool_decide_eq_true. intros Hin.
  assert (Hall : Forall (λ k, numeral_chars k = false) Object_prototype)
    by (repeat constructor).
  rewrite Forall_forall in Hall. specialize (Hall _ Hin).
  by rewrite numeral_chars_toString in Hall.
Qed.

(** The ids that the stages before [appendAndSave] hand over: ids made
    from the clock, and ids of the stored catalog. *)
Lemma resolve_ids (e : Env) (area : string) (w w1 : World)
    (c : RecordCat) (s : RecordSet) (t : RecordItem) (k : string) :
  typed area (store w) = true →
  resolve e area w = (Resolved (c, s, t), w1) →
  k ∈ cat_data c →
  k = toString (now_latest e) ∨ k = toString (now_roll e)
  ∨ ∃ c0, stored_catalog area (store w) = Some c0 ∧ k ∈ cat_data c0.
Proof.
  intros Hty Hres Hk.
  destruct (resolve_cases e area w Hty)
    as [[_ (ids & ts & w2 & Heq & _ & _ & Hids)]
       |(c0 & s0 & w2 & Hlat & _ & Hcase)].
  { rewrite Heq in Hres. injection Hres as <- <- <- <-.
    apply elem_of_cons in Hk as [->|Hk]; [by left|].
    right. right. by destruct (Hids k Hk) as [_ ?]. }
  destruct (latest_lookup area (store w) c0 s0 Hlat) as (id & rest & Hc0 & _).
  apply stored_catalog_Some in Hc0.
  destruct Hcase as [(first & _ & _ & Heq & _)
                    |[_ [(_ & Heq & _)|[(_ & _ & Heq & _)|(_ & _ & Heq & _)]]]];
    rewrite Heq in Hres; injection Hres as <- <- <- <-.
  - right. right. by exists c0.
  - right. right. by exists c0.
  - apply elem_of_cons in Hk as [->|Hk]; [right; by left|].
    right. right. by exists c0.
  - apply elem_of_cons in Hk as [->|Hk]; [right; by left|].
    right. right. exists c0. split; [done|]. by apply elem_of_removelast.
Qed.

Lemma addRecord_plain_ids (e : Env) (area : string) (text : Word) (w : World) :
  typed area (store w) = true →
  plain_ids area (store w) = true →
  plain_ids area (store (addRecord e area text w).2) = true.
Proof.
  intros Hty Hplain.
  destruct (resolve_typed e area w Hty) as (c & s & t & w1 & Hres & Hst & _).
  rewrite (addRecord_run e area text w w1 _ Hres Hst). cbn [snd store].
  destruct (set_ok e); [|done].
  unfold plain_ids, stored_catalog.
  destruct (_ !! catName area) as [[c'|s']|] eqn:Hc'; [|done..].
  apply forallb_forall. intros k Hk%list_elem_of_In.
  rewrite appendWord_set_id in Hc'. cbn [fst snd] in Hc'.
  assert (Hin : k ∈ cat_data c).
  { destruct (decide (set_id s = catName area)) as [Heq|Hne].
    - by rewrite Heq, lookup_insert_eq in Hc'.
    - rewrite lookup_insert_ne, lookup_insert_eq in Hc' by done.
      injection Hc' as <-. by rewrite appendWord_cat_data in Hk. }
  destruct (resolve_ids e area w w1 c s t k Hty Hres Hin)
    as [->|[->|(c0 & Hc0 & Hk0)]]; [apply toString_plain..|].
  unfold plain_ids in Hplain. rewrite Hc0 in Hplain.
  rewrite forallb_forall in Hplain. by apply Hplain, list_elem_of_In.
Qed.

(** In every state reached from the empty store the catalog lists plain
    ids: ids made from the clock. *)
Lemma reachable_plain_ids (area : string) (w : World) :
  reachable area w → plain_ids area (store w) = true.
Proof.
  induction 1 as [|e text w Hw IH|w Hw IH].
  - unfold plain_ids, stored_catalog. simpl. by rewrite lookup_empty.
  - destruct (reachable_invariants area w Hw) as [Hwf _].
    apply addRecord_plain_ids; [by apply well_formed_typed|done].
  - destruct (reachable_invariants area w Hw) as [Hwf _].
    destruct (clearRecords_store area w (well_formed_typed _ _ Hwf)) as (_ & Hcat & _).
    unfold plain_ids. by rewrite Hcat.
Qed.

(** ** Appending twice on one day *)




